(** * FMODStudy: the audio manager and the 3D orbit demo

    A shallow embedding of [examples/audio_manager.cpp] (class
    [AudioManager]) and of the simulation loop of [examples/3d_audio.cpp],
    together with the properties the specification states about them.

    The FMOD engine is an external library.  It is modelled here as a state
    ([Engine]) that records every call it receives ([eng_log]) and keeps the
    sounds, channel groups and channels it has handed out.  Whatever the
    source cannot decide (does a file load, does a channel end during this
    frame, ...) is a variable of the section, so every theorem holds for all
    behaviours of the engine. *)

From stdpp Require Import gmap strings list.
From stdpp Require Import sorting.
From Stdlib Require Import ZArith Reals Lra.
From Stdlib Require Import Floats.SpecFloat.

(** ** C++ [float] and [double]

    IEEE 754 binary32 and binary64 values, with the operations of the
    Standard Library's [SpecFloat] at the two formats. *)

Module Ieee.

Definition float := spec_float.
Definition double := spec_float.

Definition prec32 : Z := 24.
Definition emax32 : Z := 128.
Definition prec64 : Z := 53.
Definition emax64 : Z := 1024.

(** Conversions: [float -> double] is exact, [double -> float] rounds to
    nearest even.  Both renormalise the mantissa to the target format. *)
Definition to_float (x : spec_float) : float :=
  match x with
  | S754_finite s m e => binary_round prec32 emax32 s m e
  | _ => x
  end.

Definition to_double (x : spec_float) : double :=
  match x with
  | S754_finite s m e => binary_round prec64 emax64 s m e
  | _ => x
  end.

(** Literals with an integral value, such as [2.0f]. *)
Definition float_of_Z (z : Z) : float := binary_normalize prec32 emax32 z 0 false.

Definition fadd : float -> float -> float := SFadd prec32 emax32.
Definition fmul : float -> float -> float := SFmul prec32 emax32.
Definition fsqrt : float -> float := SFsqrt prec32 emax32.
Definition dmul : double -> double -> double := SFmul prec64 emax64.
Definition ddiv : double -> double -> double := SFdiv prec64 emax64.
Definition dsub : double -> double -> double := SFsub prec64 emax64.

(** [a < b] and [a > b] on floats of one format. *)
Definition flt (a b : spec_float) : bool := SFltb a b.
Definition fgt (a b : spec_float) : bool := SFltb b a.
Definition fle (a b : spec_float) : bool := SFleb a b.

Definition fzero : float := S754_zero false.
Definition fone : float := float_of_Z 1.

End Ieee.

Import Ieee.

(** ** The FMOD engine

    Handles ([FMOD::Sound*], [FMOD::ChannelGroup*], [FMOD::Channel*]) are
    indices into the engine's tables; a null pointer is [None]. *)

Inductive FMOD_RESULT :=
  | FMOD_OK
  | FMOD_ERR_FILE_NOTFOUND
  | FMOD_ERR_FORMAT
  | FMOD_ERR_INVALID_HANDLE
  | FMOD_ERR_INVALID_PARAM
  | FMOD_ERR_MEMORY
  | FMOD_ERR_OUTPUT_INIT.

Definition is_ok (r : FMOD_RESULT) : bool :=
  match r with FMOD_OK => true | _ => false end.

Inductive FMOD_MODE := FMOD_DEFAULT | FMOD_LOOP_NORMAL | FMOD_LOOP_OFF.

Inductive SystemHandle := TheSystem.

Inductive EngineCall :=
  | System_Create
  | System_init (maxchannels : Z)
  | System_createChannelGroup (name : string)
  | System_getMasterChannelGroup
  | System_createSound (path : string)
  | System_createStream (path : string)
  | System_playSound (snd : option nat) (grp : option nat) (paused : bool)
  | System_update
  | Channel_isPlaying (ch : nat)
  | Channel_stop (ch : nat)
  | Channel_setVolume (ch : nat) (v : float)
  | Channel_setMode (ch : nat) (m : FMOD_MODE)
  | Channel_setPaused (ch : nat) (p : bool)
  | ChannelGroup_setVolume (grp : nat) (v : float).

Record Sound := { snd_path : string; snd_stream : bool }.

Record ChannelGroup := { grp_name : string; grp_volume : float }.

Record Channel := {
  ch_sound : nat;
  ch_group : option nat;
  ch_playing : bool;
  ch_paused : bool;
  ch_volume : float;
  ch_mode : FMOD_MODE
}.

Record Engine := {
  eng_sounds : list Sound;
  eng_groups : list ChannelGroup;
  eng_channels : list Channel;
  eng_log : list EngineCall
}.

(** A system has its master channel group from the start (index 0). *)
Definition fresh_engine : Engine :=
  {| eng_sounds := []; eng_groups := [{| grp_name := "Master"; grp_volume := fone |}];
     eng_channels := []; eng_log := [] |}.

Definition log (c : EngineCall) (e : Engine) : Engine :=
  {| eng_sounds := eng_sounds e; eng_groups := eng_groups e;
     eng_channels := eng_channels e; eng_log := eng_log e ++ [c] |}.

Definition with_channels (e : Engine) (cs : list Channel) : Engine :=
  {| eng_sounds := eng_sounds e; eng_groups := eng_groups e;
     eng_channels := cs; eng_log := eng_log e |}.

Definition with_groups (e : Engine) (gs : list ChannelGroup) : Engine :=
  {| eng_sounds := eng_sounds e; eng_groups := gs;
     eng_channels := eng_channels e; eng_log := eng_log e |}.

Definition with_sounds (e : Engine) (ss : list Sound) : Engine :=
  {| eng_sounds := ss; eng_groups := eng_groups e;
     eng_channels := eng_channels e; eng_log := eng_log e |}.

(** A channel handle is valid while its channel plays (paused or not); once
    the channel is stopped or has ended the handle is stale and every call
    on it answers [FMOD_ERR_INVALID_HANDLE] without any effect. *)
Definition live (e : Engine) (c : nat) : bool :=
  match eng_channels e !! c with
  | Some ch => ch_playing ch
  | None => false
  end.

Definition ch_stopped (ch : Channel) : Channel :=
  {| ch_sound := ch_sound ch; ch_group := ch_group ch; ch_playing := false;
     ch_paused := ch_paused ch; ch_volume := ch_volume ch; ch_mode := ch_mode ch |}.

Definition ch_with_volume (v : float) (ch : Channel) : Channel :=
  {| ch_sound := ch_sound ch; ch_group := ch_group ch; ch_playing := ch_playing ch;
     ch_paused := ch_paused ch; ch_volume := v; ch_mode := ch_mode ch |}.

Definition ch_with_mode (m : FMOD_MODE) (ch : Channel) : Channel :=
  {| ch_sound := ch_sound ch; ch_group := ch_group ch; ch_playing := ch_playing ch;
     ch_paused := ch_paused ch; ch_volume := ch_volume ch; ch_mode := m |}.

Definition ch_with_paused (p : bool) (ch : Channel) : Channel :=
  {| ch_sound := ch_sound ch; ch_group := ch_group ch; ch_playing := ch_playing ch;
     ch_paused := p; ch_volume := ch_volume ch; ch_mode := ch_mode ch |}.

Definition grp_with_volume (v : float) (g : ChannelGroup) : ChannelGroup :=
  {| grp_name := grp_name g; grp_volume := v |}.

(** A call on a channel: logged, and applied when the handle is valid. *)
Definition on_channel (call : EngineCall) (f : Channel -> Channel) (c : nat)
    (e : Engine) : FMOD_RESULT * Engine :=
  if live e c
  then (FMOD_OK, log call (with_channels e (alter f c (eng_channels e))))
  else (FMOD_ERR_INVALID_HANDLE, log call e).

Definition Channel_isPlaying_ (c : nat) (e : Engine) : bool * Engine :=
  (live e c, log (Channel_isPlaying c) e).

Definition Channel_stop_ (c : nat) : Engine -> FMOD_RESULT * Engine :=
  on_channel (Channel_stop c) ch_stopped c.

Definition Channel_setVolume_ (c : nat) (v : float) : Engine -> FMOD_RESULT * Engine :=
  on_channel (Channel_setVolume c v) (ch_with_volume v) c.

Definition Channel_setMode_ (c : nat) (m : FMOD_MODE) : Engine -> FMOD_RESULT * Engine :=
  on_channel (Channel_setMode c m) (ch_with_mode m) c.

Definition Channel_setPaused_ (c : nat) (p : bool) : Engine -> FMOD_RESULT * Engine :=
  on_channel (Channel_setPaused c p) (ch_with_paused p) c.

(** The engine stores the volume it is given: FMOD documents the range of
    [ChannelControl::setVolume] as unbounded. *)
Definition ChannelGroup_setVolume_ (g : nat) (v : float) (e : Engine)
    : FMOD_RESULT * Engine :=
  match eng_groups e !! g with
  | Some _ =>
      (FMOD_OK, log (ChannelGroup_setVolume g v)
                    (with_groups e (alter (grp_with_volume v) g (eng_groups e))))
  | None => (FMOD_ERR_INVALID_HANDLE, log (ChannelGroup_setVolume g v) e)
  end.

(** ** The audio manager ([examples/audio_manager.cpp]) *)

(** Lines written to [std::cerr]. *)
Inductive Diag :=
  | FmodError (description : string) (r : FMOD_RESULT)
  | SoundNotLoaded (name : string)
  | MusicNotLoaded (name : string).

Record AudioManager := {
  system : option SystemHandle;
  sounds : gmap string (option nat);
  sfxGroup : option nat;
  musicGroup : option nat;
  voiceGroup : option nat;
  masterGroup : option nat;
  currentMusicChannel : option nat
}.

Record World := { mgr : AudioManager; eng : Engine; cerr : list Diag }.

(** Dereferencing a null pointer ends the run. *)
Inductive Outcome (A : Type) :=
  | Ok (a : A)
  | NullDeref.
Arguments Ok {A} a.
Arguments NullDeref {A}.

Definition set_eng (w : World) (e : Engine) : World :=
  {| mgr := mgr w; eng := e; cerr := cerr w |}.

Definition set_mgr (w : World) (m : AudioManager) : World :=
  {| mgr := m; eng := eng w; cerr := cerr w |}.

Definition report (d : Diag) (w : World) : World :=
  {| mgr := mgr w; eng := eng w; cerr := cerr w ++ [d] |}.

Definition set_system (m : AudioManager) (s : option SystemHandle) : AudioManager :=
  {| system := s; sounds := sounds m; sfxGroup := sfxGroup m; musicGroup := musicGroup m;
     voiceGroup := voiceGroup m; masterGroup := masterGroup m;
     currentMusicChannel := currentMusicChannel m |}.

Definition set_sounds (m : AudioManager) (s : gmap string (option nat)) : AudioManager :=
  {| system := system m; sounds := s; sfxGroup := sfxGroup m; musicGroup := musicGroup m;
     voiceGroup := voiceGroup m; masterGroup := masterGroup m;
     currentMusicChannel := currentMusicChannel m |}.

Definition set_sfxGroup (m : AudioManager) (g : option nat) : AudioManager :=
  {| system := system m; sounds := sounds m; sfxGroup := g; musicGroup := musicGroup m;
     voiceGroup := voiceGroup m; masterGroup := masterGroup m;
     currentMusicChannel := currentMusicChannel m |}.

Definition set_musicGroup (m : AudioManager) (g : option nat) : AudioManager :=
  {| system := system m; sounds := sounds m; sfxGroup := sfxGroup m; musicGroup := g;
     voiceGroup := voiceGroup m; masterGroup := masterGroup m;
     currentMusicChannel := currentMusicChannel m |}.

Definition set_voiceGroup (m : AudioManager) (g : option nat) : AudioManager :=
  {| system := system m; sounds := sounds m; sfxGroup := sfxGroup m; musicGroup := musicGroup m;
     voiceGroup := g; masterGroup := masterGroup m;
     currentMusicChannel := currentMusicChannel m |}.

Definition set_masterGroup (m : AudioManager) (g : option nat) : AudioManager :=
  {| system := system m; sounds := sounds m; sfxGroup := sfxGroup m; musicGroup := musicGroup m;
     voiceGroup := voiceGroup m; masterGroup := g;
     currentMusicChannel := currentMusicChannel m |}.

Definition set_currentMusicChannel (m : AudioManager) (c : option nat) : AudioManager :=
  {| system := system m; sounds := sounds m; sfxGroup := sfxGroup m; musicGroup := musicGroup m;
     voiceGroup := voiceGroup m; masterGroup := masterGroup m;
     currentMusicChannel := c |}.

(** The constructor: every pointer null, no sound. *)
Definition new_AudioManager : AudioManager :=
  {| system := None; sounds := ∅; sfxGroup := None; musicGroup := None;
     voiceGroup := None; masterGroup := None; currentMusicChannel := None |}.

Definition new_World : World :=
  {| mgr := new_AudioManager; eng := fresh_engine; cerr := [] |}.

(** ** The 3D orbit demo ([examples/3d_audio.cpp])

    [main] sets the engine up, then runs the simulation loop: every
    iteration pushes the listener, computes the emitter's position and
    velocity on a circle, pushes them, updates the engine and advances the
    angle.  The program is modelled as a function from the calls made so far
    to the calls made afterwards, with [None] for a run ended by
    [exit(-1)]. *)

Module Orbit.

Record FMOD_VECTOR (F : Type) := { vec_x : F; vec_y : F; vec_z : F }.
Arguments vec_x {F} _.
Arguments vec_y {F} _.
Arguments vec_z {F} _.
Arguments Build_FMOD_VECTOR {F} _ _ _.

(** The arithmetic the orbit formulas use.  The program runs them on
    [float]; the geometry they implement is stated on the real numbers. *)
Class Arith (F : Type) := {
  a_zero : F;
  a_add : F -> F -> F;
  a_mul : F -> F -> F;
  a_neg : F -> F;
  a_cos : F -> F;
  a_sin : F -> F;
  a_sqrt : F -> F
}.

Section Formulas.

Context {F : Type} `{Arith F}.

(** Lines 107-110. *)
Definition soundPos (radius angle : F) : FMOD_VECTOR F :=
  {| vec_x := a_mul radius (a_cos angle);
     vec_y := a_zero;
     vec_z := a_mul radius (a_sin angle) |}.

(** Lines 114-117. *)
Definition soundVel (radius angularSpeed angle : F) : FMOD_VECTOR F :=
  {| vec_x := a_mul (a_mul (a_neg radius) angularSpeed) (a_sin angle);
     vec_y := a_zero;
     vec_z := a_mul (a_mul radius angularSpeed) (a_cos angle) |}.

(** Lines 129-131: the distance from the listener, who is at the origin. *)
Definition distance (p : FMOD_VECTOR F) : F :=
  a_sqrt (a_add (a_add (a_mul (vec_x p) (vec_x p)) (a_mul (vec_y p) (vec_y p)))
                (a_mul (vec_z p) (vec_z p))).

(** The scalar product [v . p]. *)
Definition dot (v p : FMOD_VECTOR F) : F :=
  a_add (a_add (a_mul (vec_x v) (vec_x p)) (a_mul (vec_y v) (vec_y p)))
        (a_mul (vec_z v) (vec_z p)).

End Formulas.

#[global] Instance R_Arith : Arith R :=
  {| a_zero := 0%R; a_add := Rplus; a_mul := Rmult; a_neg := Ropp;
     a_cos := cos; a_sin := sin; a_sqrt := sqrt |}.

(** [M_PI]: the decimal literal 3.14159265358979323846 as a [double]. *)
Definition M_PI : double :=
  SFdiv prec64 emax64 (S754_finite false 314159265358979323846 0)
                      (S754_finite false (10 ^ 20) 0).

(** [2.0f * M_PI], evaluated in [double]. *)
Definition two_pi : double := dmul (to_double (float_of_Z 2)) M_PI.

Definition radius : float := float_of_Z 10.
Definition duration : float := float_of_Z 15.
(** [0.05f] *)
Definition updateInterval : float :=
  SFdiv prec32 emax32 (float_of_Z 5) (float_of_Z 100).
(** [const float angularSpeed = 2.0f * M_PI / 10.0f]: computed in [double],
    stored as [float]. *)
Definition angularSpeed : float :=
  to_float (ddiv two_pi (to_double (float_of_Z 10))).

Definition listenerPos : FMOD_VECTOR float := Build_FMOD_VECTOR fzero fzero fzero.
Definition listenerVel : FMOD_VECTOR float := Build_FMOD_VECTOR fzero fzero fzero.
Definition listenerForward : FMOD_VECTOR float := Build_FMOD_VECTOR fzero fzero fone.
Definition listenerUp : FMOD_VECTOR float := Build_FMOD_VECTOR fzero fone fzero.

Inductive Call :=
  | System_Create
  | System_init (maxchannels : Z)
  | System_set3DSettings (dopplerscale distancefactor rolloffscale : float)
  | System_createSound (name : string)
  | Sound_set3DMinMaxDistance (min max : float)
  | System_playSound
  | System_set3DListenerAttributes (listener : Z) (pos vel forward up : FMOD_VECTOR float)
  | Channel_set3DAttributes (pos vel : FMOD_VECTOR float)
  | System_update
  | Channel_stop
  | Sound_release
  | System_release.

(** A piece of the program: from the calls made so far to the calls made
    after it, and its value unless the process exited. *)
Definition Run (A : Type) : Type := list Call -> list Call * option A.

Definition ret {A : Type} (a : A) : Run A := fun tr => (tr, Some a).

Definition exit {A : Type} : Run A := fun tr => (tr, None).

Definition bind {A B : Type} (m : Run A) (k : A -> Run B) : Run B :=
  fun tr =>
    match m tr with
    | (tr', Some a) => k a tr'
    | (tr', None) => (tr', None)
    end.

#[global] Instance Run_ret : MRet Run := @ret.
#[global] Instance Run_bind : MBind Run := fun A B k m => bind m k.

Record SimState := { angle : float; elapsedTime : float }.

(** Lines 88 and 93. *)
Definition initial_state : SimState := {| angle := fzero; elapsedTime := fzero |}.

(** Lines 142-145: the angle for the next iteration. *)
Definition next_angle (a : float) : float :=
  let a := fadd a (fmul angularSpeed updateInterval) in
  if fgt (to_double a) two_pi then to_float (dsub (to_double a) two_pi) else a.

(** Lines 141-148: the state for the next iteration. *)
Definition advance (st : SimState) : SimState :=
  {| angle := next_angle (angle st);
     elapsedTime := fadd (elapsedTime st) updateInterval |}.

(** The state [k] iterations later. *)
Fixpoint after (k : nat) (st : SimState) : SimState :=
  match k with
  | O => st
  | S k' => after k' (advance st)
  end.

(** The states the loop leaves at the end of each iteration, when no
    engine error ends the run; [None] when the fuel runs out before the
    loop condition fails. *)
Fixpoint visited (fuel : nat) (st : SimState) : option (list SimState) :=
  match fuel with
  | O => None
  | S fuel' =>
      if flt (elapsedTime st) duration
      then option_map (cons (advance st)) (visited fuel' (advance st))
      else Some []
  end.

(** [0 <= a < 2.0f * M_PI], compared as the program compares. *)
Definition in_range (a : float) : bool :=
  fle fzero a && flt (to_double a) two_pi.

(** The states at the end of the next [n] iterations. *)
Fixpoint trajectory (n : nat) (st : SimState) : list SimState :=
  match n with
  | O => []
  | S n' => advance st :: trajectory n' (advance st)
  end.

Definition is_update (c : Call) : bool :=
  match c with System_update => true | _ => false end.

(** Number of engine updates among the calls [l]. *)
Definition updates (l : list Call) : nat :=
  length (filter (fun c => is_update c) l).

(** The distances of a call, if it sets any, are the program's 1 and 100. *)
Definition distances_ok (c : Call) : Prop :=
  match c with
  | Sound_set3DMinMaxDistance min max => min = float_of_Z 1 /\ max = float_of_Z 100
  | _ => True
  end.

(** The engine calls of a complete set-up and of a complete clean-up. *)
Definition setup_calls (soundFile : string) : list Call :=
  [ System_Create; System_init 512; System_set3DSettings fone fone fone;
    System_createSound soundFile;
    Sound_set3DMinMaxDistance (float_of_Z 1) (float_of_Z 100);
    System_playSound ].

Definition teardown_calls : list Call := [Channel_stop; Sound_release; System_release].

(** An engine whose channel has ended and whose updates fail. *)
Definition channel_ended : list Call -> Call -> FMOD_RESULT :=
  fun _ c =>
    match c with
    | Channel_set3DAttributes _ _ => FMOD_ERR_INVALID_HANDLE
    | System_update => FMOD_ERR_MEMORY
    | _ => FMOD_OK
    end.

(** A piece of the program that only ever passes the distances 1 and 100. *)
Definition keeps_distances {A : Type} (m : Run A) : Prop :=
  forall tr, Forall distances_ok tr -> Forall distances_ok (m tr).1.

Section Program.

(** The engine's answer to a call, given the calls before it. *)
Variable answer : list Call -> Call -> FMOD_RESULT.
(** [std::cos] and [std::sin] on [float]. *)
Variable cosf sinf : float -> float.

#[local] Instance float_Arith : Arith float :=
  {| a_zero := fzero; a_add := fadd; a_mul := fmul; a_neg := SFopp;
     a_cos := cosf; a_sin := sinf; a_sqrt := fsqrt |}.

Definition call (c : Call) : Run FMOD_RESULT :=
  fun tr => (tr ++ [c], Some (answer tr c)).

(** [CheckError] ends the process on any result but [FMOD_OK]. *)
Definition CheckError (result : FMOD_RESULT) (description : string) : Run unit :=
  if is_ok result then ret tt else exit.

Definition is_invalid_handle (r : FMOD_RESULT) : bool :=
  match r with FMOD_ERR_INVALID_HANDLE => true | _ => false end.

Definition listener_call : Call :=
  System_set3DListenerAttributes 0 listenerPos listenerVel listenerForward listenerUp.

Definition emitter_call (st : SimState) : Call :=
  Channel_set3DAttributes (soundPos radius (angle st))
                          (soundVel radius angularSpeed (angle st)).

(** Lines 96-148: one iteration of the loop. *)
Definition tick (st : SimState) : Run SimState :=
  result ← call listener_call;
  _ ← CheckError result "set3DListenerAttributes";
  result ← call (emitter_call st);
  _ ← (if negb (is_ok result) && negb (is_invalid_handle result)
        then CheckError result "set3DAttributes" else ret tt);
  _ ← call System_update;
  ret (advance st).

(** Lines 95-149; [None] when the fuel runs out. *)
Fixpoint loop (fuel : nat) (st : SimState) : Run (option SimState) :=
  match fuel with
  | O => ret None
  | S fuel' =>
      if flt (elapsedTime st) duration
      then st' ← tick st; loop fuel' st'
      else ret (Some st)
  end.

(** Lines 66-70, with the two distances as arguments. *)
Definition set_distances (minDistance maxDistance : float) : Run unit :=
  result ← call (Sound_set3DMinMaxDistance minDistance maxDistance);
  CheckError result "set3DMinMaxDistance".

(** Lines 41-75. *)
Definition setup (soundFile : string) : Run unit :=
  result ← call System_Create;
  _ ← CheckError result "System_Create";
  result ← call (System_init 512);
  _ ← CheckError result "init";
  result ← call (System_set3DSettings fone fone fone);
  _ ← CheckError result "set3DSettings";
  result ← call (System_createSound soundFile);
  _ ← CheckError result "createSound";
  _ ← set_distances (float_of_Z 1) (float_of_Z 100);
  result ← call System_playSound;
  CheckError result "playSound".

(** Lines 151-163. *)
Definition teardown : Run Z :=
  _ ← call Channel_stop;
  result ← call Sound_release;
  _ ← CheckError result "sound3D->release";
  result ← call System_release;
  _ ← CheckError result "system->release";
  ret 0%Z.

(** [main]; the value is the exit status of a run that returns. *)
Definition main (fuel : nat) (soundFile : string) : Run (option Z) :=
  _ ← setup soundFile;
  final ← loop fuel initial_state;
  match final with
  | Some _ => status ← teardown; ret (Some status)
  | None => ret None
  end.

(** The calls of one complete iteration. *)
Definition frame (st : SimState) : list Call :=
  [listener_call; emitter_call st; System_update].

(** The calls of [k] complete iterations from [st]. *)
Fixpoint frames (k : nat) (st : SimState) : list Call :=
  match k with
  | O => []
  | S k' => frame st ++ frames k' (advance st)
  end.

End Program.

End Orbit.

(** ** Releasing: [shutdown]

    The release calls go to a log of their own, in the order they are
    made.  Releasing a sound ends the channels that play it; releasing the
    system ends every channel. *)

Inductive ReleaseCall :=
  | Sound_release (snd : nat)
  | System_release.

Definition Sound_release_ (s : nat) (e : Engine) : Engine :=
  with_channels e
    ((fun ch => if decide (ch_sound ch = s) then ch_stopped ch else ch) <$> eng_channels e).

Definition System_release_ (e : Engine) : Engine :=
  with_channels e (ch_stopped <$> eng_channels e).

(** The order of [std::map<std::string, ...>]: by key, bytewise. *)
Definition name_le (p q : string * option nat) : Prop :=
  String.leb p.1 q.1 = true.

#[global] Instance name_le_dec p q : Decision (name_le p q) :=
  decide (String.leb p.1 q.1 = true).

#[global] Instance name_le_total : Total name_le.
Proof. intros p q. apply String.leb_total. Qed.

(** [for (auto& pair : sounds)]: the entries as the loop meets them. *)
Definition sounds_in_order (m : gmap string (option nat)) : list (string * option nat) :=
  merge_sort name_le (map_to_list m).

(** Lines 214-216: [pair.second->release()] for every entry. *)
Fixpoint release_all (l : list (string * option nat)) (e : Engine)
    : Outcome (list ReleaseCall * Engine) :=
  match l with
  | [] => Ok ([], e)
  | (_, None) :: _ => NullDeref
  | (_, Some s) :: l' =>
      match release_all l' (Sound_release_ s e) with
      | Ok (calls, e') => Ok (Sound_release s :: calls, e')
      | NullDeref => NullDeref
      end
  end.

(** Lines 210-226.  The music slot and the group pointers are left as
    they are. *)
Definition shutdown (w : World) : Outcome (list ReleaseCall * World) :=
  match release_all (sounds_in_order (sounds (mgr w))) (eng w) with
  | NullDeref => NullDeref
  | Ok (calls, e) =>
      let w := set_mgr (set_eng w e) (set_sounds (mgr w) ∅) in
      match system (mgr w) with
      | Some _ =>
          Ok (calls ++ [System_release],
              set_mgr (set_eng w (System_release_ (eng w))) (set_system (mgr w) None))
      | None => Ok (calls, w)
      end
  end.

(** The engine calls of a complete [initialize], in order. *)
Definition init_calls : list EngineCall :=
  [ System_Create; System_init 512;
    System_createChannelGroup "SFX"; System_createChannelGroup "Music";
    System_createChannelGroup "Voice"; System_getMasterChannelGroup ].

(** The literals [0.5f], [0.7f] and [0.8f]. *)
Definition f_0_5 : float := SFdiv prec32 emax32 (float_of_Z 1) (float_of_Z 2).
Definition f_0_7 : float := SFdiv prec32 emax32 (float_of_Z 7) (float_of_Z 10).
Definition f_0_8 : float := SFdiv prec32 emax32 (float_of_Z 8) (float_of_Z 10).

(** ** A concrete engine and a concrete run, to instantiate the theorems *)

(** An engine that accepts every request, none of whose channels ends. *)
Definition always_ok : Engine -> EngineCall -> FMOD_RESULT := fun _ _ => FMOD_OK.

Definition never_ends : Engine -> nat -> bool := fun _ _ => false.

(** An engine for which the file [missing.wav] does not exist. *)
Definition missing_file : Engine -> EngineCall -> FMOD_RESULT :=
  fun _ c =>
    match c with
    | System_createSound "missing.wav" => FMOD_ERR_FILE_NOTFOUND
    | _ => FMOD_OK
    end.

(** An engine all of whose channels end at the next update. *)
Definition all_end : Engine -> nat -> bool := fun _ _ => true.

(** An engine that has no channel left to play a sound on. *)
Definition refuses_play : Engine -> EngineCall -> FMOD_RESULT :=
  fun _ c =>
    match c with
    | System_playSound _ _ _ => FMOD_ERR_MEMORY
    | _ => FMOD_OK
    end.

(** The world a successful [initialize] of a new manager leaves. *)
Definition ready : World :=
  {| mgr := {| system := Some TheSystem; sounds := ∅;
               sfxGroup := Some 1%nat; musicGroup := Some 2%nat;
               voiceGroup := Some 3%nat; masterGroup := Some 0%nat;
               currentMusicChannel := None |};
     eng := {| eng_sounds := [];
               eng_groups := [ {| grp_name := "Master"; grp_volume := fone |};
                               {| grp_name := "SFX"; grp_volume := fone |};
                               {| grp_name := "Music"; grp_volume := fone |};
                               {| grp_name := "Voice"; grp_volume := fone |} ];
               eng_channels := [];
               eng_log := [ System_Create; System_init 512;
                            System_createChannelGroup "SFX";
                            System_createChannelGroup "Music";
                            System_createChannelGroup "Voice";
                            System_getMasterChannelGroup ] |};
     cerr := [] |}.

Section AudioManager.

(** What the engine answers to a request that can fail, in a given state. *)
Variable result_of : Engine -> EngineCall -> FMOD_RESULT.
(** Whether a channel reaches the end of its sound during this update. *)
Variable finished : Engine -> nat -> bool.
(** Whether a failed [playSound] writes a null pointer into its out
    parameter ([true]) or leaves it as it was ([false]). *)
Variable play_failure_clears : bool.

Definition System_Create_ (e : Engine) : FMOD_RESULT * option SystemHandle * Engine :=
  let r := result_of e System_Create in
  (r, if is_ok r then Some TheSystem else None, log System_Create e).

Definition System_init_ (maxchannels : Z) (e : Engine) : FMOD_RESULT * Engine :=
  (result_of e (System_init maxchannels), log (System_init maxchannels) e).

Definition System_createChannelGroup_ (name : string) (e : Engine)
    : FMOD_RESULT * option nat * Engine :=
  let call := System_createChannelGroup name in
  let r := result_of e call in
  if is_ok r
  then (r, Some (length (eng_groups e)),
        log call (with_groups e (eng_groups e ++ [{| grp_name := name; grp_volume := fone |}])))
  else (r, None, log call e).

Definition System_getMasterChannelGroup_ (e : Engine)
    : FMOD_RESULT * option nat * Engine :=
  let r := result_of e System_getMasterChannelGroup in
  (r, if is_ok r then Some 0%nat else None, log System_getMasterChannelGroup e).

(** [createSound] and [createStream]: one resource creation each. *)
Definition System_create_ (stream : bool) (path : string) (e : Engine)
    : FMOD_RESULT * option nat * Engine :=
  let call := if stream then System_createStream path else System_createSound path in
  let r := result_of e call in
  if is_ok r
  then (r, Some (length (eng_sounds e)),
        log call (with_sounds e (eng_sounds e ++ [{| snd_path := path; snd_stream := stream |}])))
  else (r, None, log call e).

(** [playSound]: a new channel, hence a handle no earlier channel has.
    A null sound is an invalid parameter. *)
Definition System_playSound_ (snd : option nat) (grp : option nat) (paused : bool)
    (e : Engine) : FMOD_RESULT * option nat * Engine :=
  let call := System_playSound snd grp paused in
  match snd with
  | None => (FMOD_ERR_INVALID_PARAM, None, log call e)
  | Some s =>
      let r := result_of e call in
      if is_ok r
      then (r, Some (length (eng_channels e)),
            log call (with_channels e
              (eng_channels e ++ [{| ch_sound := s; ch_group := grp; ch_playing := true;
                                     ch_paused := paused; ch_volume := fone;
                                     ch_mode := FMOD_DEFAULT |}])))
      else (r, None, log call e)
  end.

(** What a pointer variable holds after being passed as the out parameter
    of [playSound]. *)
Definition play_out (before after : option nat) : option nat :=
  match after with
  | Some c => Some c
  | None => if play_failure_clears then None else before
  end.

Definition System_update_ (e : Engine) : FMOD_RESULT * Engine :=
  (FMOD_OK,
   log System_update
     (with_channels e
        (imap (fun i ch => if finished e i then ch_stopped ch else ch) (eng_channels e)))).

Definition checkError (result : FMOD_RESULT) (description : string) (w : World)
    : bool * World :=
  if is_ok result then (true, w) else (false, report (FmodError description result) w).

Definition CATEGORY_SFX : Z := 0.
Definition CATEGORY_MUSIC : Z := 1.
Definition CATEGORY_VOICE : Z := 2.

Definition getChannelGroup (m : AudioManager) (category : Z) : option nat :=
  match category with
  | 0%Z => sfxGroup m
  | 1%Z => musicGroup m
  | 2%Z => voiceGroup m
  | _ => None
  end.

(** [initialize]: every step returns early on failure. *)
Definition initialize (w : World) : Outcome (bool * World) :=
  let '(result, sys, e) := System_Create_ (eng w) in
  let w := set_eng (if is_ok result then set_mgr w (set_system (mgr w) sys) else w) e in
  let '(ok, w) := checkError result "System_Create" w in
  if negb ok then Ok (false, w) else
  match system (mgr w) with
  | None => NullDeref
  | Some _ =>
  let '(result, e) := System_init_ 512 (eng w) in
  let w := set_eng w e in
  let '(ok, w) := checkError result "init" w in
  if negb ok then Ok (false, w) else
  let '(result, g, e) := System_createChannelGroup_ "SFX" (eng w) in
  let w := set_eng (if is_ok result then set_mgr w (set_sfxGroup (mgr w) g) else w) e in
  let '(ok, w) := checkError result "createChannelGroup SFX" w in
  if negb ok then Ok (false, w) else
  let '(result, g, e) := System_createChannelGroup_ "Music" (eng w) in
  let w := set_eng (if is_ok result then set_mgr w (set_musicGroup (mgr w) g) else w) e in
  let '(ok, w) := checkError result "createChannelGroup Music" w in
  if negb ok then Ok (false, w) else
  let '(result, g, e) := System_createChannelGroup_ "Voice" (eng w) in
  let w := set_eng (if is_ok result then set_mgr w (set_voiceGroup (mgr w) g) else w) e in
  let '(ok, w) := checkError result "createChannelGroup Voice" w in
  if negb ok then Ok (false, w) else
  let '(result, g, e) := System_getMasterChannelGroup_ (eng w) in
  let w := set_eng (if is_ok result then set_mgr w (set_masterGroup (mgr w) g) else w) e in
  let '(ok, w) := checkError result "getMasterChannelGroup" w in
  if negb ok then Ok (false, w) else
  Ok (true, w)
  end.

Definition loadSound (name filepath : string) (isStream : bool) (w : World)
    : Outcome (bool * World) :=
  match sounds (mgr w) !! name with
  | Some _ => Ok (true, w)
  | None =>
      match system (mgr w) with
      | None => NullDeref
      | Some _ =>
          let '(result, sound, e) := System_create_ isStream filepath (eng w) in
          let w := set_eng w e in
          let '(ok, w) := checkError result ("load " +:+ name) w in
          if negb ok then Ok (false, w)
          else Ok (true, set_mgr w (set_sounds (mgr w) (<[name := sound]> (sounds (mgr w)))))
      end
  end.

Definition playSFX (name : string) (volume : float) (w : World) : Outcome World :=
  match sounds (mgr w) !! name with
  | None => Ok (report (SoundNotLoaded name) w)
  | Some snd =>
      match system (mgr w) with
      | None => NullDeref
      | Some _ =>
          let '(_, channel, e) := System_playSound_ snd (sfxGroup (mgr w)) false (eng w) in
          match channel with
          | Some c => Ok (set_eng w (Channel_setVolume_ c volume e).2)
          | None => Ok (set_eng w e)
          end
      end
  end.

Definition playMusic (name : string) (loop : bool) (volume : float) (w : World)
    : Outcome World :=
  match sounds (mgr w) !! name with
  | None => Ok (report (MusicNotLoaded name) w)
  | Some snd =>
      (* Stop current music if playing *)
      let e :=
        match currentMusicChannel (mgr w) with
        | Some c =>
            let '(isPlaying, e) := Channel_isPlaying_ c (eng w) in
            if isPlaying then (Channel_stop_ c e).2 else e
        | None => eng w
        end in
      (* Play new music *)
      match system (mgr w) with
      | None => NullDeref
      | Some _ =>
          let '(_, channel, e) := System_playSound_ snd (musicGroup (mgr w)) false e in
          let slot := play_out (currentMusicChannel (mgr w)) channel in
          let w := set_mgr (set_eng w e) (set_currentMusicChannel (mgr w) slot) in
          match slot with
          | Some c =>
              let e := (Channel_setVolume_ c volume (eng w)).2 in
              let e := (Channel_setMode_ c (if loop then FMOD_LOOP_NORMAL else FMOD_LOOP_OFF) e).2 in
              Ok (set_eng w e)
          | None => Ok w
          end
      end
  end.

Definition stopMusic (w : World) : Outcome World :=
  match currentMusicChannel (mgr w) with
  | Some c =>
      let e := (Channel_stop_ c (eng w)).2 in
      Ok (set_mgr (set_eng w e) (set_currentMusicChannel (mgr w) None))
  | None => Ok w
  end.

Definition pauseMusic (pause : bool) (w : World) : Outcome World :=
  match currentMusicChannel (mgr w) with
  | Some c => Ok (set_eng w (Channel_setPaused_ c pause (eng w)).2)
  | None => Ok w
  end.

Definition setCategoryVolume (category : Z) (volume : float) (w : World) : Outcome World :=
  match getChannelGroup (mgr w) category with
  | Some group => Ok (set_eng w (ChannelGroup_setVolume_ group volume (eng w)).2)
  | None => Ok w
  end.

Definition setMasterVolume (volume : float) (w : World) : Outcome World :=
  match masterGroup (mgr w) with
  | Some group => Ok (set_eng w (ChannelGroup_setVolume_ group volume (eng w)).2)
  | None => Ok w
  end.

Definition update (w : World) : Outcome World :=
  match system (mgr w) with
  | Some _ => Ok (set_eng w (System_update_ (eng w)).2)
  | None => Ok w
  end.

(** A client of the manager: any sequence of calls of the methods it
    offers between [initialize] and [shutdown]. *)
Inductive Op :=
  | OpLoadSound (name filepath : string) (isStream : bool)
  | OpPlaySFX (name : string) (volume : float)
  | OpPlayMusic (name : string) (loop : bool) (volume : float)
  | OpStopMusic
  | OpPauseMusic (pause : bool)
  | OpSetCategoryVolume (category : Z) (volume : float)
  | OpSetMasterVolume (volume : float)
  | OpUpdate.

Definition exec (o : Op) (w : World) : Outcome World :=
  match o with
  | OpLoadSound name filepath isStream =>
      match loadSound name filepath isStream w with
      | Ok (_, w') => Ok w'
      | NullDeref => NullDeref
      end
  | OpPlaySFX name volume => playSFX name volume w
  | OpPlayMusic name loop volume => playMusic name loop volume w
  | OpStopMusic => stopMusic w
  | OpPauseMusic pause => pauseMusic pause w
  | OpSetCategoryVolume category volume => setCategoryVolume category volume w
  | OpSetMasterVolume volume => setMasterVolume volume w
  | OpUpdate => update w
  end.

Fixpoint run (ops : list Op) (w : World) : Outcome World :=
  match ops with
  | [] => Ok w
  | o :: ops' =>
      match exec o w with
      | Ok w' => run ops' w'
      | NullDeref => NullDeref
      end
  end.

(** ** The example program ([main] of audio_manager.cpp) *)

(** Lines 279-296: five events, each a sound effect and twenty updates. *)
Definition game_events : list Op :=
  flat_map (fun i =>
              (if Nat.even i then OpPlaySFX "explosion" f_0_7 else OpPlaySFX "laser" f_0_8)
              :: replicate 20 OpUpdate)
           (seq 0 5).

(** Lines 262-307: what [main] asks of the manager between [initialize]
    and [shutdown]. *)
Definition main_ops : list Op :=
  [ OpLoadSound "explosion" "explosion.wav" false;
    OpLoadSound "laser" "laser.wav" false;
    OpLoadSound "bgmusic" "background.mp3" true;
    OpSetCategoryVolume CATEGORY_SFX f_0_8;
    OpSetCategoryVolume CATEGORY_MUSIC f_0_5;
    OpSetMasterVolume fone;
    OpPlayMusic "bgmusic" true f_0_5 ]
  ++ game_events
  ++ [ OpPauseMusic true; OpPauseMusic false; OpStopMusic ].

(** How [main] ends: [initialize] failed (the message and [return -1] of
    lines 255-258), or the run reached [return 0]. *)
Inductive MainResult :=
  | InitFailed (w : World)
  | Finished (releases : list ReleaseCall) (w : World).

Definition exit_status (r : MainResult) : Z :=
  match r with
  | InitFailed _ => (-1)%Z
  | Finished _ _ => 0%Z
  end.

Definition main : Outcome MainResult :=
  match initialize new_World with
  | NullDeref => NullDeref
  | Ok (false, w) => Ok (InitFailed w)
  | Ok (true, w) =>
      match run main_ops w with
      | NullDeref => NullDeref
      | Ok w =>
          match shutdown w with
          | NullDeref => NullDeref
          | Ok (releases, w) => Ok (Finished releases w)
          end
      end
  end.

(** Every cached sound is a sound of the engine, and two names never
    share one. *)
Definition cache_ok (w : World) : Prop :=
  (forall name v, sounds (mgr w) !! name = Some v ->
     exists s, v = Some s /\ (s < length (eng_sounds (eng w)))%nat) /\
  (forall n1 n2 s, sounds (mgr w) !! n1 = Some (Some s) ->
     sounds (mgr w) !! n2 = Some (Some s) -> n1 = n2).

(** The pointers [initialize] sets are the same in both managers. *)
Definition same_handles (m m' : AudioManager) : Prop :=
  system m' = system m /\ sfxGroup m' = sfxGroup m /\ musicGroup m' = musicGroup m /\
  voiceGroup m' = voiceGroup m /\ masterGroup m' = masterGroup m.

(** ** Notions the properties are stated with *)

(** The engine call a load issues. *)
Definition create_call (isStream : bool) (filepath : string) : EngineCall :=
  if isStream then System_createStream filepath else System_createSound filepath.

(** Number of resource creations the engine has been asked for. *)
Definition is_creation (c : EngineCall) : bool :=
  match c with
  | System_createSound _ | System_createStream _ => true
  | _ => false
  end.

Definition creations (l : list EngineCall) : nat :=
  length (filter (fun c => is_creation c) l).

(** A music handle is a channel of the music group; it is active while
    the engine reports it playing. *)
Definition active_music (w : World) (i : nat) : Prop :=
  exists ch, eng_channels (eng w) !! i = Some ch /\
             ch_playing ch = true /\
             ch_group ch = musicGroup (mgr w).

Definition single_music_on (m : AudioManager) (cs : list Channel) : Prop :=
  forall i ch, cs !! i = Some ch -> ch_playing ch = true ->
               ch_group ch = musicGroup m -> currentMusicChannel m = Some i.

Definition no_active_music (m : AudioManager) (cs : list Channel) : Prop :=
  forall i ch, cs !! i = Some ch -> ch_playing ch = true ->
               ch_group ch = musicGroup m -> False.

(** [cs'] has the channels of [cs], none of them restarted or regrouped. *)
Definition chans_shrink (cs cs' : list Channel) : Prop :=
  forall i ch', cs' !! i = Some ch' ->
    exists ch, cs !! i = Some ch /\ ch_group ch' = ch_group ch /\
               (ch_playing ch' = true -> ch_playing ch = true).

Definition Inv (w : World) : Prop :=
  is_Some (system (mgr w)) /\
  sfxGroup (mgr w) <> musicGroup (mgr w) /\
  single_music_on (mgr w) (eng_channels (eng w)).

Definition tame (f : Channel -> Channel) : Prop :=
  forall ch, ch_group (f ch) = ch_group ch /\
             (ch_playing (f ch) = true -> ch_playing ch = true).

(** The engine as [playMusic] leaves it before it calls [playSound]. *)
Definition stop_current (w : World) : Engine :=
  match currentMusicChannel (mgr w) with
  | Some c =>
      let '(isPlaying, e) := Channel_isPlaying_ c (eng w) in
      if isPlaying then (Channel_stop_ c e).2 else e
  | None => eng w
  end.

Definition new_channel (s : nat) (grp : option nat) (paused : bool) : Channel :=
  {| ch_sound := s; ch_group := grp; ch_playing := true; ch_paused := paused;
     ch_volume := fone; ch_mode := FMOD_DEFAULT |}.

(** The clamp to [0,1] that the specification describes. *)
Definition spec_clamp01 (v : float) : float :=
  if flt v fzero then fzero else if fgt v fone then fone else v.

(** What a volume setter that found its group does to the world. *)
Definition volume_set (g : nat) (v : float) (w w' : World) : Prop :=
  grp_volume <$> eng_groups (eng w') !! g = Some v /\
  (forall g', g' <> g -> eng_groups (eng w') !! g' = eng_groups (eng w) !! g') /\
  eng_log (eng w') = eng_log (eng w) ++ [ChannelGroup_setVolume g v] /\
  mgr w' = mgr w /\
  cerr w' = cerr w.

(** ** Properties of the resource cache *)

Lemma creations_snoc_create l isStream filepath :
  creations (l ++ [create_call isStream filepath]) = S (creations l).
Proof.
  unfold creations. rewrite filter_app, length_app.
  destruct isStream; simpl; lia.
Qed.

Lemma loadSound_cached name filepath isStream w snd :
  sounds (mgr w) !! name = Some snd ->
  loadSound name filepath isStream w = Ok (true, w).
Proof. intros H. unfold loadSound. by rewrite H. Qed.

Lemma loadSound_fresh_ok name filepath isStream w sys :
  sounds (mgr w) !! name = None ->
  system (mgr w) = Some sys ->
  result_of (eng w) (create_call isStream filepath) = FMOD_OK ->
  loadSound name filepath isStream w =
    Ok (true,
        {| mgr := set_sounds (mgr w)
                    (<[name := Some (length (eng_sounds (eng w)))]> (sounds (mgr w)));
           eng := log (create_call isStream filepath)
                    (with_sounds (eng w)
                       (eng_sounds (eng w) ++
                          [{| snd_path := filepath; snd_stream := isStream |}]));
           cerr := cerr w |}).
Proof.
  intros Hn Hs Hr. unfold loadSound, System_create_.
  rewrite Hn, Hs. fold (create_call isStream filepath). rewrite Hr. reflexivity.
Qed.

Lemma loadSound_fresh_fail name filepath isStream w sys :
  sounds (mgr w) !! name = None ->
  system (mgr w) = Some sys ->
  is_ok (result_of (eng w) (create_call isStream filepath)) = false ->
  loadSound name filepath isStream w =
    Ok (false,
        {| mgr := mgr w;
           eng := log (create_call isStream filepath) (eng w);
           cerr := cerr w ++ [FmodError ("load " +:+ name)
                                (result_of (eng w) (create_call isStream filepath))] |}).
Proof.
  intros Hn Hs Hr. unfold loadSound, System_create_.
  rewrite Hn, Hs. fold (create_call isStream filepath).
  unfold checkError. rewrite Hr. simpl. rewrite Hr. reflexivity.
Qed.

(** C2. [loadSound] is idempotent on the name: when the name is cached, a
    call with any file path and any streaming flag returns [true] and
    leaves the manager, the engine (hence its log: no resource creation)
    and the cache as they were; a successful load of a new name asks the
    engine for exactly one resource creation, stores the new sound under
    the name, and makes every later load of that name a no-op. *)
Theorem loadSound_idempotent name filepath isStream w :
  (forall snd, sounds (mgr w) !! name = Some snd ->
     loadSound name filepath isStream w = Ok (true, w)) /\
  (forall sys, sounds (mgr w) !! name = None ->
     system (mgr w) = Some sys ->
     result_of (eng w) (create_call isStream filepath) = FMOD_OK ->
     exists w',
       loadSound name filepath isStream w = Ok (true, w') /\
       eng_log (eng w') = eng_log (eng w) ++ [create_call isStream filepath] /\
       creations (eng_log (eng w')) = S (creations (eng_log (eng w))) /\
       sounds (mgr w') = <[name := Some (length (eng_sounds (eng w)))]> (sounds (mgr w)) /\
       forall filepath2 isStream2,
         loadSound name filepath2 isStream2 w' = Ok (true, w')) /\
  (forall w', sounds (mgr w) !! name = None ->
     loadSound name filepath isStream w = Ok (true, w') ->
     creations (eng_log (eng w')) = S (creations (eng_log (eng w)))).
Proof.
  split; [|split].
  - intros snd H. by eapply loadSound_cached.
  - intros sys Hn Hs Hr. eexists. split.
    + by eapply loadSound_fresh_ok.
    + simpl. repeat split.
      * apply creations_snoc_create.
      * intros p2 s2. eapply loadSound_cached. simpl. apply lookup_insert_eq.
  - intros w' Hn. unfold loadSound, System_create_, checkError. rewrite Hn.
    destruct (system (mgr w)); [|done].
    fold (create_call isStream filepath).
    destruct (is_ok (result_of (eng w) (create_call isStream filepath))) eqn:E;
      simpl; rewrite ?E; simpl; [|done].
    intros [= <-]. simpl. apply creations_snoc_create.
Qed.

(** C5 (as the code has it). When the engine cannot create a resource
    from the file path: for a name that is not cached, [loadSound] returns
    [false], reports the engine's error, and the manager -- in particular
    its cache -- is exactly what it was (the name is not inserted, no entry
    changes); for a name that is cached, [loadSound] does not ask the engine
    and returns [true], the cache again unchanged. *)
Theorem loadSound_failure_keeps_cache name filepath isStream w sys :
  system (mgr w) = Some sys ->
  is_ok (result_of (eng w) (create_call isStream filepath)) = false ->
  (sounds (mgr w) !! name = None ->
   exists w',
     loadSound name filepath isStream w = Ok (false, w') /\
     sounds (mgr w') = sounds (mgr w) /\
     sounds (mgr w') !! name = None /\
     mgr w' = mgr w /\
     eng_sounds (eng w') = eng_sounds (eng w) /\
     cerr w' = cerr w ++ [FmodError ("load " +:+ name)
                            (result_of (eng w) (create_call isStream filepath))]) /\
  (forall snd, sounds (mgr w) !! name = Some snd ->
     loadSound name filepath isStream w = Ok (true, w)).
Proof.
  intros Hs Hr. split.
  - intros Hn. eexists. split.
    + by eapply loadSound_fresh_fail.
    + simpl. by repeat split.
  - intros snd Hn. by eapply loadSound_cached.
Qed.

(** C4. On a name that is not in the cache, [playSFX] and [playMusic]
    only write the not-loaded message to [std::cerr] and return: the
    manager (music slot included) and the engine (log included: no call
    reached it) are unchanged. *)
Theorem play_not_loaded name loop volume w :
  sounds (mgr w) !! name = None ->
  exists w1 w2,
    playSFX name volume w = Ok w1 /\
    playMusic name loop volume w = Ok w2 /\
    mgr w1 = mgr w /\ eng w1 = eng w /\ cerr w1 = cerr w ++ [SoundNotLoaded name] /\
    mgr w2 = mgr w /\ eng w2 = eng w /\ cerr w2 = cerr w ++ [MusicNotLoaded name] /\
    currentMusicChannel (mgr w1) = currentMusicChannel (mgr w) /\
    currentMusicChannel (mgr w2) = currentMusicChannel (mgr w) /\
    eng_log (eng w1) = eng_log (eng w) /\
    eng_log (eng w2) = eng_log (eng w).
Proof.
  intros H. unfold playSFX, playMusic. rewrite H.
  do 2 eexists. repeat split.
Qed.

(** ** The music slot *)

Lemma chans_shrink_refl cs : chans_shrink cs cs.
Proof. intros i ch H. exists ch. auto. Qed.

Lemma chans_shrink_trans cs1 cs2 cs3 :
  chans_shrink cs1 cs2 -> chans_shrink cs2 cs3 -> chans_shrink cs1 cs3.
Proof.
  intros H12 H23 i ch3 H3.
  destruct (H23 _ _ H3) as (ch2 & H2 & Hg2 & Hp2).
  destruct (H12 _ _ H2) as (ch1 & H1 & Hg1 & Hp1).
  exists ch1. repeat split; [done | congruence | auto].
Qed.

Lemma chans_shrink_alter f c cs : tame f -> chans_shrink cs (alter f c cs).
Proof.
  intros Hf i ch' H.
  destruct (decide (i = c)) as [->|Hne].
  - rewrite list_lookup_alter_eq in H.
    destruct (cs !! c) as [ch|] eqn:E; simpl in H; [|done].
    injection H as <-. exists ch. destruct (Hf ch). auto.
  - rewrite list_lookup_alter_ne in H by done. exists ch'. auto.
Qed.

Lemma chans_shrink_on_channel call f c e :
  tame f -> chans_shrink (eng_channels e) (eng_channels (on_channel call f c e).2).
Proof.
  intros Hf. unfold on_channel. destruct (live e c); simpl.
  - by apply chans_shrink_alter.
  - apply chans_shrink_refl.
Qed.

Lemma tame_stopped : tame ch_stopped.
Proof. intros ch. simpl. split; [done | discriminate]. Qed.

Lemma tame_volume v : tame (ch_with_volume v).
Proof. intros ch. simpl. auto. Qed.

Lemma tame_mode m : tame (ch_with_mode m).
Proof. intros ch. simpl. auto. Qed.

Lemma tame_paused p : tame (ch_with_paused p).
Proof. intros ch. simpl. auto. Qed.

Lemma chans_shrink_update e :
  chans_shrink (eng_channels e) (eng_channels (System_update_ e).2).
Proof.
  intros i ch' H. simpl in H. rewrite list_lookup_imap in H.
  destruct (eng_channels e !! i) as [ch|] eqn:E; simpl in H; [|done].
  injection H as <-. exists ch. split; [done|].
  destruct (finished e i); simpl; auto. split; [done | discriminate].
Qed.

Lemma single_music_shrink m cs cs' :
  chans_shrink cs cs' -> single_music_on m cs -> single_music_on m cs'.
Proof.
  intros Hs H i ch' Hl Hp Hg.
  destruct (Hs _ _ Hl) as (ch & Hl0 & Hg0 & Hp0).
  apply (H i ch); [done | auto | congruence].
Qed.

Lemma no_active_single m cs : no_active_music m cs -> single_music_on m cs.
Proof. intros H i ch Hl Hp Hg. destruct (H i ch Hl Hp Hg). Qed.

(** The slot does not occur in [no_active_music]. *)
Lemma no_active_slot m c cs :
  no_active_music m cs -> no_active_music (set_currentMusicChannel m c) cs.
Proof. intros H i ch. apply H. Qed.

Lemma live_stop c e : live (Channel_stop_ c e).2 c = false.
Proof.
  unfold Channel_stop_, on_channel. destruct (live e c) eqn:E; simpl; [|done].
  unfold live in *. simpl. rewrite list_lookup_alter_eq.
  destruct (eng_channels e !! c); simpl; done.
Qed.

(** Once the slot's channel does not play, no music channel does. *)
Lemma single_dead_no_active m cs c :
  single_music_on m cs -> currentMusicChannel m = Some c ->
  (forall ch, cs !! c = Some ch -> ch_playing ch = false) ->
  no_active_music m cs.
Proof.
  intros H Hc Hd i ch Hl Hp Hg.
  pose proof (H i ch Hl Hp Hg) as Hi. rewrite Hc in Hi. injection Hi as ->.
  rewrite (Hd ch Hl) in Hp. done.
Qed.

Lemma stop_current_no_active w :
  single_music_on (mgr w) (eng_channels (eng w)) ->
  no_active_music (mgr w) (eng_channels (stop_current w)).
Proof.
  intros H. unfold stop_current.
  destruct (currentMusicChannel (mgr w)) as [c|] eqn:Hc; simpl.
  - destruct (live (eng w) c) eqn:Hl.
    + eapply single_dead_no_active; [| exact Hc |].
      * eapply single_music_shrink; [| exact H].
        apply (chans_shrink_on_channel _ _ _ (log (Channel_isPlaying c) (eng w))), tame_stopped.
      * intros ch Hch.
        pose proof (live_stop c (log (Channel_isPlaying c) (eng w))) as Hs.
        unfold live in Hs. rewrite Hch in Hs. exact Hs.
    + eapply single_dead_no_active; [exact H | exact Hc |].
      intros ch Hch. unfold live in Hl. simpl in Hch. rewrite Hch in Hl. exact Hl.
  - intros i ch Hl Hp Hg. pose proof (H i ch Hl Hp Hg) as Hi. congruence.
Qed.

(** [playSound] either appends one playing channel and returns its handle,
    or returns no handle and leaves the channels alone. *)
Lemma playSound_cases snd grp paused e :
  eng_log (System_playSound_ snd grp paused e).2 =
    eng_log e ++ [System_playSound snd grp paused] /\
  ((exists s, snd = Some s /\
      result_of e (System_playSound snd grp paused) = FMOD_OK /\
      (System_playSound_ snd grp paused e).1.2 = Some (length (eng_channels e)) /\
      eng_channels (System_playSound_ snd grp paused e).2 =
        eng_channels e ++ [new_channel s grp paused]) \/
   ((snd = None \/ is_ok (result_of e (System_playSound snd grp paused)) = false) /\
    (System_playSound_ snd grp paused e).1.2 = None /\
    eng_channels (System_playSound_ snd grp paused e).2 = eng_channels e)).
Proof.
  unfold System_playSound_. destruct snd as [s|]; simpl.
  - destruct (result_of e (System_playSound (Some s) grp paused)) eqn:E; simpl;
      split; try done; try (right; by auto).
    left. by exists s.
  - split; [done|]. right. auto.
Qed.

Lemma on_channel_log call f c e :
  eng_log (on_channel call f c e).2 = eng_log e ++ [call].
Proof. unfold on_channel. by destruct (live e c). Qed.

Lemma live_on_channel call f c e i :
  (forall ch, ch_playing (f ch) = ch_playing ch) ->
  live (on_channel call f c e).2 i = live e i.
Proof.
  intros Hf. unfold on_channel. destruct (live e c) eqn:E; [|done].
  unfold live. simpl. destruct (decide (i = c)) as [->|Hne].
  - rewrite list_lookup_alter_eq. destruct (eng_channels e !! c); simpl; auto.
  - by rewrite list_lookup_alter_ne.
Qed.

Lemma single_music_snoc_other m cs ch :
  single_music_on m cs -> ch_group ch <> musicGroup m ->
  single_music_on m (cs ++ [ch]).
Proof.
  intros H Hg i ch' Hl Hp Hg'.
  apply lookup_app_Some in Hl as [Hl | [Hlen Hl]].
  - by apply (H i ch').
  - destruct (i - length cs)%nat; simpl in Hl; [|done].
    injection Hl as <-. done.
Qed.

Lemma single_music_snoc_slot m cs ch :
  no_active_music m cs ->
  single_music_on (set_currentMusicChannel m (Some (length cs))) (cs ++ [ch]).
Proof.
  intros H i ch' Hl Hp Hg. simpl.
  apply lookup_app_Some in Hl as [Hl | [Hlen Hl]].
  - destruct (H i ch' Hl Hp Hg).
  - destruct (i - length cs)%nat eqn:E; simpl in Hl; [|done].
    f_equal. lia.
Qed.

Lemma loadSound_inv name filepath isStream w :
  Inv w -> exists b w', loadSound name filepath isStream w = Ok (b, w') /\ Inv w'.
Proof.
  intros (Hs & Hg & Hm). unfold loadSound.
  destruct (sounds (mgr w) !! name); [by exists true, w|].
  destruct Hs as [sys Hs]. rewrite Hs. unfold System_create_, checkError.
  destruct (is_ok (result_of (eng w) _)) eqn:E; simpl; rewrite ?E; simpl;
    do 2 eexists; (split; [reflexivity|]); repeat split; simpl; eauto.
Qed.

Lemma playSFX_inv name volume w :
  Inv w -> exists w', playSFX name volume w = Ok w' /\ Inv w'.
Proof.
  intros (Hs & Hg & Hm). unfold playSFX.
  destruct (sounds (mgr w) !! name) as [snd|]; [|by eexists].
  destruct Hs as [sys Hs]. rewrite Hs.
  destruct (playSound_cases snd (sfxGroup (mgr w)) false (eng w))
    as [_ [(s & _ & _ & Hc & Hch) | (_ & Hc & Hch)]];
    destruct (System_playSound_ snd (sfxGroup (mgr w)) false (eng w)) as [[r ch] e];
    simpl in Hc, Hch; subst ch; eexists; (split; [reflexivity|]);
    (split; [by eexists|]); (split; [done|]); simpl.
  - eapply single_music_shrink; [apply chans_shrink_on_channel, tame_volume|].
    rewrite Hch. by apply single_music_snoc_other.
  - by rewrite Hch.
Qed.

Lemma playMusic_inv name loop volume w :
  Inv w -> exists w', playMusic name loop volume w = Ok w' /\ Inv w'.
Proof.
  intros (Hs & Hg & Hm). unfold playMusic.
  destruct (sounds (mgr w) !! name) as [snd|]; [|by eexists].
  destruct Hs as [sys Hs]. rewrite Hs.
  change (match currentMusicChannel (mgr w) with
          | Some c => let '(isPlaying, e) := Channel_isPlaying_ c (eng w) in
                      if isPlaying then (Channel_stop_ c e).2 else e
          | None => eng w
          end) with (stop_current w).
  pose proof (stop_current_no_active w Hm) as Hno.
  destruct (playSound_cases snd (musicGroup (mgr w)) false (stop_current w))
    as [_ [(s & _ & _ & Hc & Hch) | (_ & Hc & Hch)]];
    destruct (System_playSound_ snd (musicGroup (mgr w)) false (stop_current w))
      as [[r ch] e]; simpl in Hc, Hch; subst ch.
  - simpl. eexists; split; [reflexivity|]. split; [by eexists|]. split; [done|]. simpl.
    eapply single_music_shrink;
      [eapply chans_shrink_trans; [apply chans_shrink_on_channel, tame_volume
                                  | apply chans_shrink_on_channel, tame_mode]|].
    rewrite Hch. by apply single_music_snoc_slot.
  - destruct (play_out (currentMusicChannel (mgr w)) None) as [c|];
      eexists; (split; [reflexivity|]); (split; [by eexists|]); (split; [done|]); simpl.
    + eapply single_music_shrink;
        [eapply chans_shrink_trans; [apply chans_shrink_on_channel, tame_volume
                                    | apply chans_shrink_on_channel, tame_mode]|].
      rewrite Hch. by apply no_active_single, no_active_slot.
    + rewrite Hch. by apply no_active_single, no_active_slot.
Qed.

(** The method returns a world that differs from [w] in the engine at
    most: what is left to show is the music invariant on its channels. *)
Ltac returns_keeping_manager :=
  eexists; split; [reflexivity|];
  split; [first [done | by eexists]|]; split; [done|]; simpl.

Lemma stopMusic_inv w : Inv w -> exists w', stopMusic w = Ok w' /\ Inv w'.
Proof.
  intros (Hs & Hg & Hm). unfold stopMusic.
  destruct (currentMusicChannel (mgr w)) as [c|] eqn:Hc; [|by eexists].
  returns_keeping_manager.
  apply no_active_single, no_active_slot.
  eapply single_dead_no_active; [| exact Hc |].
  - eapply single_music_shrink; [apply chans_shrink_on_channel, tame_stopped | exact Hm].
  - intros ch Hch. pose proof (live_stop c (eng w)) as Hl.
    unfold live in Hl. by rewrite Hch in Hl.
Qed.

Lemma pauseMusic_inv pause w : Inv w -> exists w', pauseMusic pause w = Ok w' /\ Inv w'.
Proof.
  intros (Hs & Hg & Hm). unfold pauseMusic.
  destruct (currentMusicChannel (mgr w)) as [c|] eqn:Hc; [|by eexists].
  returns_keeping_manager.
  eapply single_music_shrink; [apply chans_shrink_on_channel, tame_paused | exact Hm].
Qed.

Lemma group_setVolume_channels g v e :
  eng_channels (ChannelGroup_setVolume_ g v e).2 = eng_channels e.
Proof. unfold ChannelGroup_setVolume_. by destruct (eng_groups e !! g). Qed.

Lemma setCategoryVolume_inv category volume w :
  Inv w -> exists w', setCategoryVolume category volume w = Ok w' /\ Inv w'.
Proof.
  intros (Hs & Hg & Hm). unfold setCategoryVolume.
  destruct (getChannelGroup (mgr w) category) as [g|]; [|by eexists].
  returns_keeping_manager.
  by rewrite group_setVolume_channels.
Qed.

Lemma setMasterVolume_inv volume w :
  Inv w -> exists w', setMasterVolume volume w = Ok w' /\ Inv w'.
Proof.
  intros (Hs & Hg & Hm). unfold setMasterVolume.
  destruct (masterGroup (mgr w)) as [g|]; [|by eexists].
  returns_keeping_manager.
  by rewrite group_setVolume_channels.
Qed.

Lemma update_inv w : Inv w -> exists w', update w = Ok w' /\ Inv w'.
Proof.
  intros (Hs & Hg & Hm). unfold update.
  destruct Hs as [sys Hs]. rewrite Hs.
  eexists; split; [reflexivity|]. split; [by eexists|]. split; [done|].
  eapply single_music_shrink; [apply chans_shrink_update | exact Hm].
Qed.

Lemma exec_inv o w : Inv w -> exists w', exec o w = Ok w' /\ Inv w'.
Proof.
  intros H. destruct o; simpl.
  - destruct (loadSound_inv name filepath isStream w H) as (b & w' & -> & H').
    by exists w'.
  - by apply playSFX_inv.
  - by apply playMusic_inv.
  - by apply stopMusic_inv.
  - by apply pauseMusic_inv.
  - by apply setCategoryVolume_inv.
  - by apply setMasterVolume_inv.
  - by apply update_inv.
Qed.

Lemma run_inv ops : forall w, Inv w -> exists w', run ops w = Ok w' /\ Inv w'.
Proof.
  induction ops as [|o ops IH]; intros w H; simpl.
  - by exists w.
  - destruct (exec_inv o w H) as (w1 & -> & H1). by apply IH.
Qed.

(** A successful [initialize] of a new manager: the system exists, the
    SFX and music groups are two different groups, nothing plays. *)
Lemma initialize_inv w0 : initialize new_World = Ok (true, w0) -> Inv w0.
Proof.
  unfold initialize, System_Create_, System_init_, System_createChannelGroup_,
    System_getMasterChannelGroup_, checkError. simpl.
  repeat (match goal with
          | |- context [is_ok ?r] => destruct (is_ok r) eqn:?; simpl
          end; try discriminate).
  intros [= <-]. simpl. split; [by eexists|]. split; [discriminate|].
  intros i ch Hl. done.
Qed.

Lemma live_channels e e' c :
  eng_channels e = eng_channels e' -> live e c = live e' c.
Proof. unfold live. by intros ->. Qed.

Lemma live_lt e c : live e c = true -> (c < length (eng_channels e))%nat.
Proof.
  unfold live. destruct (eng_channels e !! c) eqn:E; [|done].
  intros _. by eapply lookup_lt_Some.
Qed.

Lemma on_channel_length call f c e :
  length (eng_channels (on_channel call f c e).2) = length (eng_channels e).
Proof. unfold on_channel. destruct (live e c); simpl; [apply length_alter | done]. Qed.

Lemma stop_current_live w c :
  currentMusicChannel (mgr w) = Some c -> live (eng w) c = true ->
  stop_current w = (Channel_stop_ c (log (Channel_isPlaying c) (eng w))).2.
Proof. intros Hc Hl. unfold stop_current. rewrite Hc. simpl. by rewrite Hl. Qed.

(** [playMusic] while the slot's channel plays: the engine is asked, in
    this order, whether the channel plays, to stop it, and to play the new
    sound; afterwards the old handle is dead, and when the engine accepted
    the new sound the slot holds the new, live handle. *)
Lemma playMusic_replaces name snd loop volume c w :
  Inv w ->
  sounds (mgr w) !! name = Some snd ->
  currentMusicChannel (mgr w) = Some c ->
  live (eng w) c = true ->
  exists w' tail,
    playMusic name loop volume w = Ok w' /\
    eng_log (eng w') =
      eng_log (eng w) ++
        [Channel_isPlaying c; Channel_stop c;
         System_playSound snd (musicGroup (mgr w)) false] ++ tail /\
    live (eng w') c = false /\
    (forall s, snd = Some s ->
       result_of (stop_current w) (System_playSound snd (musicGroup (mgr w)) false)
         = FMOD_OK ->
       let n := length (eng_channels (eng w)) in
       currentMusicChannel (mgr w') = Some n /\ n <> c /\ live (eng w') n = true).
Proof.
  intros (Hs & Hg & Hm) Hn Hc Hl. unfold playMusic. rewrite Hn.
  destruct Hs as [sys Hs]. rewrite Hs.
  change (match currentMusicChannel (mgr w) with
          | Some c => let '(isPlaying, e) := Channel_isPlaying_ c (eng w) in
                      if isPlaying then (Channel_stop_ c e).2 else e
          | None => eng w
          end) with (stop_current w).
  assert (Hlog : eng_log (stop_current w) =
                 eng_log (eng w) ++ [Channel_isPlaying c; Channel_stop c]).
  { rewrite (stop_current_live w c Hc Hl). unfold Channel_stop_.
    rewrite on_channel_log. simpl. by rewrite <- app_assoc. }
  assert (Hdead : live (stop_current w) c = false).
  { rewrite (stop_current_live w c Hc Hl). apply live_stop. }
  assert (Hlen : length (eng_channels (stop_current w)) = length (eng_channels (eng w))).
  { rewrite (stop_current_live w c Hc Hl). unfold Channel_stop_.
    by rewrite on_channel_length. }
  pose proof (live_lt _ _ Hl) as Hlt.
  destruct (playSound_cases snd (musicGroup (mgr w)) false (stop_current w))
    as [Hlog2 [(s & -> & Hok & Hch & Hcs) | (Hfail & Hch & Hcs)]];
    destruct (System_playSound_ _ (musicGroup (mgr w)) false (stop_current w))
      as [[r ch] e]; simpl in Hlog2, Hch, Hcs; subst ch.
  - simpl. eexists. exists [Channel_setVolume (length (eng_channels (stop_current w))) volume;
              Channel_setMode (length (eng_channels (stop_current w)))
                (if loop then FMOD_LOOP_NORMAL else FMOD_LOOP_OFF)].
    split; [reflexivity|]. simpl. split; [|split].
    + unfold Channel_setMode_, Channel_setVolume_.
      rewrite !on_channel_log, Hlog2, Hlog, <- !app_assoc. reflexivity.
    + unfold Channel_setMode_, Channel_setVolume_.
      rewrite !live_on_channel by done.
      unfold live in *. rewrite Hcs, lookup_app_l by lia. exact Hdead.
    + intros s' _ _. rewrite Hlen. split; [done|]. split; [lia|].
      unfold Channel_setMode_, Channel_setVolume_.
      rewrite !live_on_channel by done.
      unfold live. rewrite Hcs, <- Hlen. by rewrite list_lookup_middle.
  - assert (Hno : forall s, snd = Some s ->
              result_of (stop_current w) (System_playSound snd (musicGroup (mgr w)) false)
                = FMOD_OK -> False).
    { intros s -> Hok. destruct Hfail as [?|Hf]; [done|]. by rewrite Hok in Hf. }
    destruct (play_out (currentMusicChannel (mgr w)) None) as [c'|].
    + eexists. exists [Channel_setVolume c' volume;
                Channel_setMode c' (if loop then FMOD_LOOP_NORMAL else FMOD_LOOP_OFF)].
      split; [reflexivity|]. simpl. split; [|split].
      * unfold Channel_setMode_, Channel_setVolume_.
        rewrite !on_channel_log, Hlog2, Hlog, <- !app_assoc. reflexivity.
      * unfold Channel_setMode_, Channel_setVolume_.
        rewrite !live_on_channel by done.
        by rewrite (live_channels e (stop_current w)).
      * intros s Hsnd Hok. destruct (Hno s Hsnd Hok).
    + eexists. exists []. split; [reflexivity|]. simpl. split; [|split].
      * rewrite Hlog2, Hlog, <- !app_assoc. reflexivity.
      * by rewrite (live_channels e (stop_current w)).
      * intros s Hsnd Hok. destruct (Hno s Hsnd Hok).
Qed.


(** ** Volume control *)

Lemma group_setVolume_valid g v e grp :
  eng_groups e !! g = Some grp ->
  ChannelGroup_setVolume_ g v e =
    (FMOD_OK, log (ChannelGroup_setVolume g v)
                  (with_groups e (alter (grp_with_volume v) g (eng_groups e)))).
Proof. intros H. unfold ChannelGroup_setVolume_. by rewrite H. Qed.

Lemma volume_set_intro g v w grp :
  eng_groups (eng w) !! g = Some grp ->
  volume_set g v w (set_eng w (ChannelGroup_setVolume_ g v (eng w)).2).
Proof.
  intros H. rewrite (group_setVolume_valid _ _ _ _ H). unfold volume_set. simpl.
  repeat split.
  - by rewrite list_lookup_alter_eq, H.
  - intros g' Hne. by rewrite list_lookup_alter_ne.
Qed.

(** C3 (as the code has it). [setCategoryVolume] hands the volume to the
    engine exactly as it received it -- no clamp is applied -- and the
    category's group takes that value; sibling groups and the master group
    keep theirs; nothing is written to [std::cerr] and the manager is
    unchanged.  [setMasterVolume] does the same on the master group. *)
Theorem volume_forwarded_unclamped category volume w g grp mg mgrp :
  getChannelGroup (mgr w) category = Some g ->
  eng_groups (eng w) !! g = Some grp ->
  masterGroup (mgr w) = Some mg ->
  eng_groups (eng w) !! mg = Some mgrp ->
  exists w1 w2,
    setCategoryVolume category volume w = Ok w1 /\
    volume_set g volume w w1 /\
    setMasterVolume volume w = Ok w2 /\
    volume_set mg volume w w2.
Proof.
  intros Hg Hgrp Hm Hmgrp. unfold setCategoryVolume, setMasterVolume.
  rewrite Hg, Hm. do 2 eexists.
  split; [reflexivity|]. split; [by eapply volume_set_intro|].
  split; [reflexivity|]. by eapply volume_set_intro.
Qed.

(** C10. Whatever integer is passed as the category and whatever the
    groups are, [setCategoryVolume] returns normally: it never
    dereferences a null group.  A value outside the three enumerators
    resolves to the null group, and whenever the group is null the call
    changes nothing. *)
Theorem setCategoryVolume_null_safe category volume w :
  exists w',
    setCategoryVolume category volume w = Ok w' /\
    (category <> CATEGORY_SFX -> category <> CATEGORY_MUSIC ->
     category <> CATEGORY_VOICE ->
     getChannelGroup (mgr w) category = None /\ w' = w) /\
    (getChannelGroup (mgr w) category = None -> w' = w).
Proof.
  unfold setCategoryVolume.
  assert (Hdef : category <> CATEGORY_SFX -> category <> CATEGORY_MUSIC ->
                 category <> CATEGORY_VOICE -> getChannelGroup (mgr w) category = None).
  { unfold CATEGORY_SFX, CATEGORY_MUSIC, CATEGORY_VOICE, getChannelGroup.
    destruct category as [|[[]|[]|]|]; congruence. }
  destruct (getChannelGroup (mgr w) category) as [g|] eqn:E.
  - eexists. split; [reflexivity|]. split.
    + intros H0 H1 H2. specialize (Hdef H0 H1 H2). congruence.
    + congruence.
  - exists w. auto.
Qed.

(** ** Further properties of the manager *)


Lemma on_channel_dead call f c e :
  live e c = false -> on_channel call f c e = (FMOD_ERR_INVALID_HANDLE, log call e).
Proof. intros H. unfold on_channel. by rewrite H. Qed.

Lemma on_channel_other call f c e i :
  i <> c -> eng_channels (on_channel call f c e).2 !! i = eng_channels e !! i.
Proof.
  intros Hne. unfold on_channel. destruct (live e c); simpl; [|done].
  by apply list_lookup_alter_ne.
Qed.

(** X2. [stopMusic] is idempotent: it returns normally on every world,
    leaves the slot empty and the slot's former channel not playing, does
    not touch any other channel nor the cache, and a second [stopMusic]
    changes nothing at all (no engine call is made). *)
Theorem stopMusic_idempotent w :
  exists w1,
    stopMusic w = Ok w1 /\
    stopMusic w1 = Ok w1 /\
    currentMusicChannel (mgr w1) = None /\
    sounds (mgr w1) = sounds (mgr w) /\
    (forall c, currentMusicChannel (mgr w) = Some c ->
       live (eng w1) c = false /\
       eng_log (eng w1) = eng_log (eng w) ++ [Channel_stop c] /\
       forall i, i <> c -> eng_channels (eng w1) !! i = eng_channels (eng w) !! i) /\
    (currentMusicChannel (mgr w) = None -> w1 = w).
Proof.
  unfold stopMusic. destruct (currentMusicChannel (mgr w)) as [c|] eqn:Hc.
  - eexists. split; [reflexivity|]. simpl.
    do 3 (split; [done|]). split; [|done].
    intros c' [= <-]. split; [apply live_stop|]. split.
    + unfold Channel_stop_. apply on_channel_log.
    + intros i Hi. unfold Channel_stop_. by apply on_channel_other.
  - exists w. rewrite Hc. by do 5 (split; [done|]).
Qed.

Lemma ch_with_paused_twice b1 b2 ch :
  ch_with_paused b2 (ch_with_paused b1 ch) = ch_with_paused b2 ch.
Proof. done. Qed.

Lemma pause_channels b c e :
  eng_channels (Channel_setPaused_ c b e).2 =
    if live e c then alter (ch_with_paused b) c (eng_channels e) else eng_channels e.
Proof. unfold Channel_setPaused_, on_channel. by destruct (live e c). Qed.

(** X3. Of two [pauseMusic] calls in a row the last one decides: the
    channels after [pauseMusic b1] then [pauseMusic b2] are those after
    [pauseMusic b2] alone.  The manager is never changed, a playing slot
    channel ends up with its paused flag equal to [b2] and otherwise as it
    was, and when the flag was [b2] to begin with (pause, then resume) the
    channels are back to what they were. *)
Theorem pauseMusic_last_call_wins b1 b2 w :
  exists w1 w2 w2',
    pauseMusic b1 w = Ok w1 /\
    pauseMusic b2 w1 = Ok w2 /\
    pauseMusic b2 w = Ok w2' /\
    eng_channels (eng w2) = eng_channels (eng w2') /\
    mgr w2 = mgr w /\
    (forall c ch, currentMusicChannel (mgr w) = Some c ->
       eng_channels (eng w) !! c = Some ch -> ch_playing ch = true ->
       eng_channels (eng w2) !! c = Some (ch_with_paused b2 ch)) /\
    (forall c ch, currentMusicChannel (mgr w) = Some c ->
       eng_channels (eng w) !! c = Some ch -> ch_paused ch = b2 ->
       eng_channels (eng w2) = eng_channels (eng w)).
Proof.
  unfold pauseMusic. destruct (currentMusicChannel (mgr w)) as [c|] eqn:Hc; simpl.
  - do 3 eexists. split; [reflexivity|]. simpl. rewrite Hc.
    do 2 (split; [reflexivity|]). simpl.
    assert (Hl : live (Channel_setPaused_ c b1 (eng w)).2 c = live (eng w) c)
      by (by apply live_on_channel).
    rewrite !pause_channels, Hl.
    assert (Hch : (if live (eng w) c
                   then alter (ch_with_paused b2) c
                          (if live (eng w) c
                           then alter (ch_with_paused b1) c (eng_channels (eng w))
                           else eng_channels (eng w))
                   else if live (eng w) c
                        then alter (ch_with_paused b1) c (eng_channels (eng w))
                        else eng_channels (eng w)) =
                  (if live (eng w) c
                   then alter (ch_with_paused b2) c (eng_channels (eng w))
                   else eng_channels (eng w))).
    { destruct (live (eng w) c); [|done].
      rewrite list_alter_alter_eq. by apply list_alter_ext. }
    rewrite Hch. split; [done|]. split; [done|]. split.
    + intros c' ch [= <-] Hch' Hp. unfold live. rewrite Hch', Hp.
      by rewrite list_lookup_alter_eq, Hch'.
    + intros c' ch [= <-] Hch' Hp. destruct (live (eng w) c); [|done].
      apply list_eq. intros i. destruct (decide (i = c)) as [->|Hne].
      * rewrite list_lookup_alter_eq, Hch'. simpl. f_equal.
        destruct ch. simpl in *. by subst.
      * by rewrite list_lookup_alter_ne.
  - exists w, w, w. rewrite Hc. by do 6 (split; [done|]).
Qed.

(** X4. A music slot whose channel has ended is harmless: [pauseMusic]
    changes no channel, [stopMusic] changes no channel and empties the
    slot, and [playMusic] of a loaded name asks the engine whether the
    channel plays and then goes straight to [playSound], without a stop. *)
Theorem ended_music_channel_is_tolerated c w :
  currentMusicChannel (mgr w) = Some c ->
  live (eng w) c = false ->
  (forall pause, exists w',
     pauseMusic pause w = Ok w' /\
     eng_channels (eng w') = eng_channels (eng w) /\ mgr w' = mgr w) /\
  (exists w',
     stopMusic w = Ok w' /\
     eng_channels (eng w') = eng_channels (eng w) /\
     currentMusicChannel (mgr w') = None) /\
  (forall name snd loop volume sys,
     sounds (mgr w) !! name = Some snd ->
     system (mgr w) = Some sys ->
     exists w' tail,
       playMusic name loop volume w = Ok w' /\
       eng_log (eng w') =
         eng_log (eng w) ++
           [Channel_isPlaying c; System_playSound snd (musicGroup (mgr w)) false] ++ tail /\
       Forall (fun call => forall c', call <> Channel_stop c') tail).
Proof.
  intros Hc Hl. split; [|split].
  - intros pause. unfold pauseMusic. rewrite Hc. eexists. split; [reflexivity|].
    simpl. unfold Channel_setPaused_. by rewrite on_channel_dead.
  - unfold stopMusic. rewrite Hc. eexists. split; [reflexivity|].
    simpl. unfold Channel_stop_. by rewrite on_channel_dead.
  - intros name snd loop volume sys Hn Hs. unfold playMusic.
    rewrite Hn, Hc, Hs. simpl. rewrite Hl.
    destruct (playSound_cases snd (musicGroup (mgr w)) false
                (log (Channel_isPlaying c) (eng w)))
      as [Hlog _].
    destruct (System_playSound_ snd (musicGroup (mgr w)) false
                (log (Channel_isPlaying c) (eng w))) as [[r ch] e].
    simpl in Hlog.
    destruct (play_out (Some c) ch) as [c'|].
    + eexists. exists [Channel_setVolume c' volume;
                Channel_setMode c' (if loop then FMOD_LOOP_NORMAL else FMOD_LOOP_OFF)].
      split; [reflexivity|]. simpl. split.
      * unfold Channel_setMode_, Channel_setVolume_.
        rewrite !on_channel_log, Hlog. by rewrite <- !app_assoc.
      * repeat constructor; by intros ?.
    + eexists. exists []. split; [reflexivity|]. simpl. split.
      * rewrite Hlog. by rewrite <- !app_assoc.
      * constructor.
Qed.

Lemma no_active_shrink_on m cs cs' :
  chans_shrink cs cs' -> no_active_music m cs ->
  forall i ch, cs' !! i = Some ch -> ch_playing ch = true ->
               ch_group ch = musicGroup m -> False.
Proof.
  intros Hsh H i ch' Hl Hp Hg.
  destruct (Hsh _ _ Hl) as (ch & Hl0 & Hg0 & Hp0).
  apply (H i ch); [done | auto | congruence].
Qed.

Lemma stop_current_length w :
  length (eng_channels (stop_current w)) = length (eng_channels (eng w)).
Proof.
  unfold stop_current. destruct (currentMusicChannel (mgr w)) as [c|]; simpl; [|done].
  destruct (live (eng w) c); [|done].
  unfold Channel_stop_. by rewrite on_channel_length.
Qed.

Lemma on_channel_lookup_same call f c e ch :
  eng_channels e !! c = Some ch -> ch_playing ch = true ->
  eng_channels (on_channel call f c e).2 !! c = Some (f ch).
Proof.
  intros Hch Hp. unfold on_channel, live. rewrite Hch, Hp. simpl.
  by rewrite list_lookup_alter_eq, Hch.
Qed.

(** X5. [playSFX] is fire and forget: for a loaded name it returns
    normally, leaves the manager (music slot included) and [std::cerr] as
    they were and every existing channel exactly as it was; when the engine
    accepts, one channel is added, of the SFX group, playing, not paused,
    with the requested volume; when it refuses, no channel is added. *)
Theorem playSFX_fire_and_forget name volume w snd sys :
  sounds (mgr w) !! name = Some snd ->
  system (mgr w) = Some sys ->
  exists w',
    playSFX name volume w = Ok w' /\
    mgr w' = mgr w /\ cerr w' = cerr w /\
    (forall i, (i < length (eng_channels (eng w)))%nat ->
       eng_channels (eng w') !! i = eng_channels (eng w) !! i) /\
    (forall s, snd = Some s ->
       result_of (eng w) (System_playSound snd (sfxGroup (mgr w)) false) = FMOD_OK ->
       eng_channels (eng w') =
         eng_channels (eng w) ++
           [{| ch_sound := s; ch_group := sfxGroup (mgr w); ch_playing := true;
               ch_paused := false; ch_volume := volume; ch_mode := FMOD_DEFAULT |}]) /\
    ((snd = None \/
      is_ok (result_of (eng w) (System_playSound snd (sfxGroup (mgr w)) false)) = false) ->
     eng_channels (eng w') = eng_channels (eng w)).
Proof.
  intros Hn Hs. unfold playSFX. rewrite Hn, Hs.
  destruct (playSound_cases snd (sfxGroup (mgr w)) false (eng w))
    as [_ [(s & -> & Hok & Hc & Hch) | (Hfail & Hc & Hch)]];
    destruct (System_playSound_ _ (sfxGroup (mgr w)) false (eng w)) as [[r ch] e];
    simpl in Hc, Hch; subst ch.
  - eexists. split; [reflexivity|]. simpl. do 2 (split; [done|]).
    assert (Hnew : eng_channels
                     (Channel_setVolume_ (length (eng_channels (eng w))) volume e).2 =
                   eng_channels (eng w) ++
                     [ch_with_volume volume (new_channel s (sfxGroup (mgr w)) false)]).
    { unfold Channel_setVolume_, on_channel, live. rewrite Hch.
      rewrite list_lookup_middle by done. simpl.
      apply list_eq. intros i.
      destruct (decide (i = length (eng_channels (eng w)))) as [->|Hne].
      - by rewrite list_lookup_alter_eq, !list_lookup_middle.
      - rewrite list_lookup_alter_ne by done.
        destruct (decide (i < length (eng_channels (eng w)))%nat).
        + by rewrite !lookup_app_l.
        + rewrite !lookup_ge_None_2; [done | | ]; rewrite length_app; simpl; lia. }
    rewrite Hnew. split; [|split].
    + intros i Hi. by rewrite lookup_app_l.
    + by intros s' [= <-] _.
    + intros [?|Hf]; [done|]. by rewrite Hok in Hf.
  - eexists. split; [reflexivity|]. simpl. do 2 (split; [done|]).
    rewrite Hch. split; [done|]. split; [|done].
    intros s -> Hok. destruct Hfail as [?|Hf]; [done|]. by rewrite Hok in Hf.
Qed.

(** X6. When the engine accepts the sound, [playMusic] leaves the new
    channel in the slot configured as requested: in the music group,
    playing, not paused, with the requested volume and with
    [FMOD_LOOP_NORMAL] or [FMOD_LOOP_OFF] according to [loop]; the cache is
    unchanged and no channel is removed. *)
Theorem playMusic_configures_new_channel name loop volume w s sys :
  sounds (mgr w) !! name = Some (Some s) ->
  system (mgr w) = Some sys ->
  result_of (stop_current w) (System_playSound (Some s) (musicGroup (mgr w)) false)
    = FMOD_OK ->
  exists w',
    playMusic name loop volume w = Ok w' /\
    currentMusicChannel (mgr w') = Some (length (eng_channels (eng w))) /\
    eng_channels (eng w') !! length (eng_channels (eng w)) =
      Some {| ch_sound := s; ch_group := musicGroup (mgr w); ch_playing := true;
              ch_paused := false; ch_volume := volume;
              ch_mode := if loop then FMOD_LOOP_NORMAL else FMOD_LOOP_OFF |} /\
    length (eng_channels (eng w')) = S (length (eng_channels (eng w))) /\
    sounds (mgr w') = sounds (mgr w).
Proof.
  intros Hn Hs Hok. unfold playMusic. rewrite Hn, Hs.
  change (match currentMusicChannel (mgr w) with
          | Some c => let '(isPlaying, e) := Channel_isPlaying_ c (eng w) in
                      if isPlaying then (Channel_stop_ c e).2 else e
          | None => eng w
          end) with (stop_current w).
  unfold System_playSound_. rewrite Hok. simpl.
  rewrite stop_current_length.
  eexists. split; [reflexivity|]. simpl. split; [done|].
  assert (Hnew : (eng_channels (stop_current w) ++
                    [new_channel s (musicGroup (mgr w)) false])
                   !! length (eng_channels (eng w)) =
                 Some (new_channel s (musicGroup (mgr w)) false)).
  { rewrite <- stop_current_length. by apply list_lookup_middle. }
  split; [|split; [|done]].
  - unfold Channel_setMode_, Channel_setVolume_.
    rewrite (on_channel_lookup_same _ _ _ _
               (ch_with_volume volume (new_channel s (musicGroup (mgr w)) false)));
      [done | | done].
    by apply on_channel_lookup_same.
  - unfold Channel_setMode_, Channel_setVolume_.
    rewrite !on_channel_length. simpl. rewrite length_app, stop_current_length.
    simpl. lia.
Qed.


Lemma on_channel_sounds call f c e :
  eng_sounds (on_channel call f c e).2 = eng_sounds e.
Proof. unfold on_channel. by destruct (live e c). Qed.

Lemma playSound_sounds snd grp paused e :
  eng_sounds (System_playSound_ snd grp paused e).2 = eng_sounds e.
Proof.
  unfold System_playSound_. destruct snd; [|done].
  by destruct (is_ok (result_of e _)).
Qed.

Lemma group_setVolume_sounds g v e :
  eng_sounds (ChannelGroup_setVolume_ g v e).2 = eng_sounds e.
Proof. unfold ChannelGroup_setVolume_. by destruct (eng_groups e !! g). Qed.

(** What a method can do to the cache: nothing, or add one new name bound
    to one new sound of the engine. *)
Lemma exec_frame o w w' :
  exec o w = Ok w' ->
  same_handles (mgr w) (mgr w') /\
  ((sounds (mgr w') = sounds (mgr w) /\ eng_sounds (eng w') = eng_sounds (eng w)) \/
   (exists name filepath isStream,
      o = OpLoadSound name filepath isStream /\
      sounds (mgr w) !! name = None /\
      sounds (mgr w') = <[name := Some (length (eng_sounds (eng w)))]> (sounds (mgr w)) /\
      eng_sounds (eng w') =
        eng_sounds (eng w) ++ [{| snd_path := filepath; snd_stream := isStream |}])).
Proof.
  destruct o; simpl.
  - unfold loadSound, System_create_, checkError.
    destruct (sounds (mgr w) !! name) eqn:Hn; [intros [= <-]; by split; [|left]|].
    destruct (system (mgr w)); [|done].
    destruct (is_ok (result_of (eng w) _)) eqn:E; simpl; rewrite ?E; simpl;
      intros [= <-]; (split; [done|]); [right | by left].
    by exists name, filepath, isStream.
  - unfold playSFX. destruct (sounds (mgr w) !! name); [|intros [= <-]; by split; [|left]].
    destruct (system (mgr w)); [|done].
    pose proof (playSound_sounds o (sfxGroup (mgr w)) false (eng w)) as Hsnd.
    destruct (System_playSound_ o (sfxGroup (mgr w)) false (eng w)) as [[r [c|]] e];
      intros [= <-]; (split; [done|]); left; simpl in *; (split; [done|]);
      [unfold Channel_setVolume_; by rewrite on_channel_sounds | done].
  - unfold playMusic. destruct (sounds (mgr w) !! name); [|intros [= <-]; by split; [|left]].
    destruct (system (mgr w)); [|done].
    change (match currentMusicChannel (mgr w) with
            | Some c => let '(isPlaying, e) := Channel_isPlaying_ c (eng w) in
                        if isPlaying then (Channel_stop_ c e).2 else e
            | None => eng w
            end) with (stop_current w).
    assert (Hsc : eng_sounds (stop_current w) = eng_sounds (eng w)).
    { unfold stop_current. destruct (currentMusicChannel (mgr w)); simpl; [|done].
      destruct (live (eng w) n); [|done]. unfold Channel_stop_. by rewrite on_channel_sounds. }
    pose proof (playSound_sounds o (musicGroup (mgr w)) false (stop_current w)) as Hsnd.
    destruct (System_playSound_ o (musicGroup (mgr w)) false (stop_current w))
      as [[r ch] e]. simpl in Hsnd.
    destruct (play_out (currentMusicChannel (mgr w)) ch);
      intros [= <-]; (split; [done|]); left; simpl; (split; [done|]);
      unfold Channel_setMode_, Channel_setVolume_;
      rewrite ?on_channel_sounds; congruence.
  - unfold stopMusic. destruct (currentMusicChannel (mgr w));
      intros [= <-]; (split; [done|]); left; simpl; (split; [done|]);
      [unfold Channel_stop_; by rewrite on_channel_sounds | done].
  - unfold pauseMusic. destruct (currentMusicChannel (mgr w));
      intros [= <-]; (split; [done|]); left; simpl; (split; [done|]);
      [unfold Channel_setPaused_; by rewrite on_channel_sounds | done].
  - unfold setCategoryVolume. destruct (getChannelGroup (mgr w) category);
      intros [= <-]; (split; [done|]); left; simpl; (split; [done|]);
      [by rewrite group_setVolume_sounds | done].
  - unfold setMasterVolume. destruct (masterGroup (mgr w));
      intros [= <-]; (split; [done|]); left; simpl; (split; [done|]);
      [by rewrite group_setVolume_sounds | done].
  - unfold update. destruct (system (mgr w)); intros [= <-]; by split; [|left].
Qed.

Lemma cache_ok_step o w w' : exec o w = Ok w' -> cache_ok w -> cache_ok w'.
Proof.
  intros Hex [Hvalid Hinj].
  destruct (exec_frame o w w' Hex) as [_ [[Hs He] | (name & p & st & _ & Hn & Hs & He)]].
  - unfold cache_ok. rewrite Hs, He. by split.
  - unfold cache_ok. rewrite Hs, He. split.
    + intros n v Hl. rewrite length_app. simpl.
      destruct (decide (name = n)) as [->|Hne].
      * rewrite lookup_insert_eq in Hl. injection Hl as <-. eexists. split; [done|]. lia.
      * rewrite lookup_insert_ne in Hl by done.
        destruct (Hvalid n v Hl) as (s & -> & Hlt). exists s. split; [done|]. lia.
    + intros n1 n2 s H1 H2. rewrite lookup_insert in H1, H2.
      repeat case_decide; simplify_eq; try done;
        first [ by eapply Hinj
              | match goal with
                | H : sounds (mgr w) !! _ = Some (Some _) |- _ =>
                    destruct (Hvalid _ _ H) as (? & [= <-] & ?); lia
                end ].
Qed.

(** X8. Along any run of the manager's methods the cache only grows and
    its entries are stable: a name that is cached stays bound to the same
    sound, every cached sound is a sound the engine created, no two names
    share a sound, and the system and group pointers never change. *)
Theorem cache_entries_are_stable ops : forall w w',
  cache_ok w ->
  run ops w = Ok w' ->
  cache_ok w' /\
  sounds (mgr w) ⊆ sounds (mgr w') /\
  same_handles (mgr w) (mgr w') /\
  (length (eng_sounds (eng w)) <= length (eng_sounds (eng w')))%nat.
Proof.
  induction ops as [|o ops IH]; intros w w' Hok; simpl.
  - intros [= <-]. split; [done|]. split; [done|]. split; [by unfold same_handles | done].
  - destruct (exec o w) as [w1|] eqn:E; [|done]. intros Hrun.
    destruct (IH w1 w' (cache_ok_step _ _ _ E Hok) Hrun) as (Hok' & Hsub & Hh & Hlen).
    destruct (exec_frame o w w1 E) as [Hh1 Hc]. split; [done|].
    destruct Hh as (? & ? & ? & ? & ?), Hh1 as (? & ? & ? & ? & ?).
    split; [|split; [repeat split; congruence|]].
    + destruct Hc as [[Hs _] | (name & _ & _ & _ & Hn & Hs & _)].
      * by rewrite <- Hs.
      * etrans; [|exact Hsub]. rewrite Hs. by apply insert_subseteq.
    + destruct Hc as [[_ He] | (name & p & st & _ & _ & _ & He)];
        rewrite He in Hlen; [done|]. rewrite length_app in Hlen. lia.
Qed.

(** X9. The cache is keyed by name, not by file: loading one file under
    two different new names asks the engine for two resources and binds the
    two names to two different sounds. *)
Theorem same_file_under_two_names_loads_twice n1 n2 filepath isStream w sys :
  n1 <> n2 ->
  sounds (mgr w) !! n1 = None ->
  sounds (mgr w) !! n2 = None ->
  system (mgr w) = Some sys ->
  (forall e, result_of e (create_call isStream filepath) = FMOD_OK) ->
  exists w1 w2 s1 s2,
    loadSound n1 filepath isStream w = Ok (true, w1) /\
    loadSound n2 filepath isStream w1 = Ok (true, w2) /\
    sounds (mgr w2) !! n1 = Some (Some s1) /\
    sounds (mgr w2) !! n2 = Some (Some s2) /\
    s1 <> s2 /\
    creations (eng_log (eng w2)) = S (S (creations (eng_log (eng w)))).
Proof.
  intros Hne H1 H2 Hs Hok.
  rewrite (loadSound_fresh_ok n1 filepath isStream w sys H1 Hs (Hok _)).
  eexists. eexists. exists (length (eng_sounds (eng w))), (S (length (eng_sounds (eng w)))).
  split; [reflexivity|].
  erewrite loadSound_fresh_ok; [| | exact Hs | apply Hok];
    [| simpl; by rewrite lookup_insert_ne].
  split; [reflexivity|]. simpl.
  split; [by rewrite lookup_insert_ne, lookup_insert_eq|].
  split; [rewrite lookup_insert_eq, length_app; simpl; do 2 f_equal; lia|].
  split; [lia|]. by rewrite !creations_snoc_create.
Qed.

Lemma sounds_in_order_empty : sounds_in_order ∅ = [].
Proof. unfold sounds_in_order. by rewrite map_to_list_empty. Qed.

Lemma elem_of_sounds_in_order m name v :
  (name, v) ∈ sounds_in_order m <-> m !! name = Some v.
Proof.
  unfold sounds_in_order. rewrite merge_sort_Permutation.
  apply elem_of_map_to_list.
Qed.

Lemma tame_release s :
  tame (fun ch => if decide (ch_sound ch = s) then ch_stopped ch else ch).
Proof.
  intros ch. destruct (decide (ch_sound ch = s)); simpl; [|done].
  split; [done | discriminate].
Qed.

Lemma chans_shrink_fmap f cs : tame f -> chans_shrink cs (f <$> cs).
Proof.
  intros Hf i ch' H. rewrite list_lookup_fmap in H.
  destruct (cs !! i) as [ch|]; simpl in H; [|done].
  injection H as <-. exists ch. destruct (Hf ch). auto.
Qed.

(** Releasing sounds that are all non-null: one release call per entry, in
    the order of the entries; the engine's log, sounds and groups are as
    they were, and no channel is started. *)
Lemma release_all_ok l : forall e,
  (forall p, p ∈ l -> is_Some p.2) ->
  exists e',
    release_all l e = Ok ((fun p => Sound_release (default 0%nat p.2)) <$> l, e') /\
    eng_log e' = eng_log e /\
    chans_shrink (eng_channels e) (eng_channels e').
Proof.
  induction l as [|[name [s|]] l IH]; intros e Hall.
  - exists e. split; [done|]. split; [done|]. apply chans_shrink_refl.
  - destruct (IH (Sound_release_ s e)) as (e' & Hrel & Hlog & Hsh).
    { intros p Hp. apply Hall. by right. }
    exists e'. split; [simpl; by rewrite Hrel|]. split; [done|].
    eapply chans_shrink_trans; [|exact Hsh].
    apply chans_shrink_fmap, tame_release.
  - destruct (Hall (name, None)) as [? ?]; [by left | done].
Qed.

Lemma cache_entries_non_null w :
  cache_ok w -> forall p, p ∈ sounds_in_order (sounds (mgr w)) -> is_Some p.2.
Proof.
  intros [Hvalid _] [name v] Hp. apply elem_of_sounds_in_order in Hp.
  destruct (Hvalid name v Hp) as (s & -> & _). by eexists.
Qed.

Lemma live_System_release e i : live (System_release_ e) i = false.
Proof.
  unfold live. simpl. rewrite list_lookup_fmap.
  by destruct (eng_channels e !! i).
Qed.

(** [shutdown] of a manager with a sound cache returns normally, with the
    release calls in cache order and the system's last. *)
Lemma shutdown_returns w :
  cache_ok w ->
  exists e,
    eng_log e = eng_log (eng w) /\
    chans_shrink (eng_channels (eng w)) (eng_channels e) /\
    shutdown w =
      Ok (((fun p => Sound_release (default 0%nat p.2)) <$> sounds_in_order (sounds (mgr w)))
            ++ match system (mgr w) with Some _ => [System_release] | None => [] end,
          {| mgr := set_system (set_sounds (mgr w) ∅) None;
             eng := match system (mgr w) with
                    | Some _ => System_release_ e
                    | None => e
                    end;
             cerr := cerr w |}).
Proof.
  intros Hok. unfold shutdown.
  destruct (release_all_ok (sounds_in_order (sounds (mgr w))) (eng w)
              (cache_entries_non_null w Hok)) as (e & -> & Hlog & Hsh).
  exists e. split; [done|]. split; [done|]. simpl.
  destruct (mgr w) as [sys snds g1 g2 g3 g4 slot]. simpl.
  destruct sys; simpl; [done|]. by rewrite app_nil_r.
Qed.

(** X10. [shutdown] of a manager whose cache holds engine sounds returns
    normally.  It releases every cached sound exactly once, in the order of
    the names, and then the system if there is one; afterwards the cache is
    empty, the system pointer is null, no channel plays (when there was a
    system), the engine log and [std::cerr] are as they were and the music
    slot still holds whatever it held.  A second [shutdown] makes no call
    and changes nothing. *)
Theorem shutdown_releases_everything w :
  cache_ok w ->
  exists entries calls w',
    shutdown w = Ok (calls, w') /\
    entries ≡ₚ map_to_list (sounds (mgr w)) /\
    Sorted name_le entries /\
    calls = ((fun p => Sound_release (default 0%nat p.2)) <$> entries)
              ++ match system (mgr w) with Some _ => [System_release] | None => [] end /\
    NoDup calls /\
    (forall name s, sounds (mgr w) !! name = Some (Some s) -> Sound_release s ∈ calls) /\
    sounds (mgr w') = ∅ /\
    system (mgr w') = None /\
    currentMusicChannel (mgr w') = currentMusicChannel (mgr w) /\
    eng_log (eng w') = eng_log (eng w) /\
    cerr w' = cerr w /\
    (is_Some (system (mgr w)) -> forall i, live (eng w') i = false) /\
    shutdown w' = Ok ([], w').
Proof.
  intros Hok. destruct (shutdown_returns w Hok) as (e & Hlog & Hsh & Hshut).
  exists (sounds_in_order (sounds (mgr w))). do 2 eexists.
  split; [exact Hshut|]. simpl.
  split; [apply merge_sort_Permutation|].
  split; [apply (Sorted_merge_sort name_le)|].
  split; [done|].
  assert (Hnd : NoDup ((fun p : string * option nat => Sound_release (default 0%nat p.2))
                         <$> sounds_in_order (sounds (mgr w)))).
  { apply NoDup_fmap_2_strong.
    - intros [n1 v1] [n2 v2] H1 H2 Heq. simpl in Heq.
      apply elem_of_sounds_in_order in H1, H2.
      destruct Hok as [Hvalid Hinj].
      destruct (Hvalid n1 v1 H1) as (s1 & -> & _), (Hvalid n2 v2 H2) as (s2 & -> & _).
      simpl in Heq. injection Heq as ->.
      by rewrite (Hinj n1 n2 s2 H1 H2).
    - unfold sounds_in_order. rewrite merge_sort_Permutation. apply NoDup_map_to_list. }
  split; [|split].
  - apply NoDup_app. split; [done|]. split.
    + intros c Hc. apply list_elem_of_fmap in Hc as (p & -> & _).
      destruct (system (mgr w)); [|apply not_elem_of_nil].
      intros Hin. apply list_elem_of_singleton in Hin. done.
    + destruct (system (mgr w)); [apply NoDup_singleton | apply NoDup_nil_2].
  - intros name s Hn. apply elem_of_app. left.
    apply list_elem_of_fmap. exists (name, Some s). split; [done|].
    by apply elem_of_sounds_in_order.
  - do 3 (split; [done|]). split.
    { destruct (system (mgr w)); simpl; done. }
    split; [done|]. split.
    + intros [sys Hs] i. rewrite Hs. apply live_System_release.
    + unfold shutdown. simpl. rewrite sounds_in_order_empty. simpl.
      destruct (mgr w) as [sys snds g1 g2 g3 g4 slot]. reflexivity.
Qed.

(** What [shutdown] leaves, whenever it returns. *)
Lemma shutdown_post w calls w' :
  shutdown w = Ok (calls, w') ->
  sounds (mgr w') = ∅ /\ system (mgr w') = None.
Proof.
  unfold shutdown.
  destruct (release_all _ _) as [[calls0 e]|]; [|done]. simpl.
  destruct (system (mgr w)) eqn:Hs; intros [= <- <-]; simpl; by rewrite ?Hs.
Qed.

(** X11. After [shutdown] the manager can still be called, except to load:
    for every name [playSFX] and [playMusic] only report that it is not
    loaded, [update] does nothing, a further [shutdown] does nothing, and
    [loadSound] dereferences the null system pointer. *)
Theorem use_after_shutdown w calls w' name filepath isStream loop volume :
  shutdown w = Ok (calls, w') ->
  loadSound name filepath isStream w' = NullDeref /\
  playSFX name volume w' = Ok (report (SoundNotLoaded name) w') /\
  playMusic name loop volume w' = Ok (report (MusicNotLoaded name) w') /\
  update w' = Ok w' /\
  shutdown w' = Ok ([], w').
Proof.
  intros Hshut. destruct (shutdown_post _ _ _ Hshut) as [Hs Hsys].
  unfold loadSound, playSFX, playMusic, update, shutdown.
  rewrite Hs, Hsys, lookup_empty, sounds_in_order_empty. simpl. rewrite Hsys.
  do 4 (split; [done|]). f_equal. f_equal.
  destruct w' as [[sys snds g1 g2 g3 g4 slot] e c]. simpl in *. by subst.
Qed.

Lemma initialize_returns w :
  exists b w', initialize w = Ok (b, w') /\ sounds (mgr w') = sounds (mgr w).
Proof.
  unfold initialize, System_Create_, System_init_, System_createChannelGroup_,
    System_getMasterChannelGroup_, checkError. simpl.
  repeat (match goal with
          | |- context [is_ok ?r] => destruct (is_ok r) eqn:?; simpl
          end); do 2 eexists; (split; [reflexivity | done]).
Qed.

Lemma run_cache_ok ops : forall w w', cache_ok w -> run ops w = Ok w' -> cache_ok w'.
Proof.
  induction ops as [|o ops IH]; intros w w' Hok; simpl; [by intros [= <-]|].
  destruct (exec o w) as [w1|] eqn:E; [|done].
  apply IH. by eapply cache_ok_step.
Qed.

Lemma run_snoc ops o w :
  run (ops ++ [o]) w =
    match run ops w with
    | Ok w1 => exec o w1
    | NullDeref => NullDeref
    end.
Proof.
  revert w. induction ops as [|o' ops IH]; intros w; simpl.
  - by destruct (exec o w).
  - destruct (exec o' w); [apply IH | done].
Qed.

Lemma main_ops_end : main_ops = removelast main_ops ++ [OpStopMusic].
Proof. reflexivity. Qed.

(** X12. The example program is null-safe for every behaviour of the
    engine: [main] always returns, with status -1 exactly when [initialize]
    failed (and then it has asked nothing more of the engine), and
    otherwise with status 0 after a [shutdown] that leaves the cache empty,
    the system pointer null, the music slot empty and no channel playing,
    the release of the system being its last call. *)
Theorem main_is_null_safe :
  exists r,
    main = Ok r /\
    (exit_status r = (-1)%Z <-> exists w, initialize new_World = Ok (false, w)) /\
    match r with
    | InitFailed w => initialize new_World = Ok (false, w)
    | Finished releases w =>
        sounds (mgr w) = ∅ /\
        system (mgr w) = None /\
        currentMusicChannel (mgr w) = None /\
        (forall i, live (eng w) i = false) /\
        last releases = Some System_release
    end.
Proof.
  destruct (initialize_returns new_World) as (b & w0 & Hinit & Hsnd).
  unfold main. rewrite Hinit. destruct b.
  - pose proof (initialize_inv w0 Hinit) as HI.
    assert (Hc0 : cache_ok w0).
    { split; intros ? ?; rewrite Hsnd; simpl; by rewrite lookup_empty. }
    rewrite main_ops_end, run_snoc.
    destruct (run_inv (removelast main_ops) w0 HI) as (w1 & Hrun & HI1).
    rewrite Hrun.
    pose proof (run_cache_ok _ _ _ Hc0 Hrun) as Hc1.
    destruct (stopMusic_inv w1 HI1) as (w2 & Hstop & HI2).
    simpl. rewrite Hstop.
    assert (Hc2 : cache_ok w2) by (by apply (cache_ok_step OpStopMusic w1)).
    assert (Hslot : currentMusicChannel (mgr w2) = None).
    { unfold stopMusic in Hstop.
      destruct (currentMusicChannel (mgr w1)) eqn:E; by injection Hstop as <-. }
    destruct (shutdown_returns w2 Hc2) as (e & _ & _ & ->).
    destruct HI2 as ([sys Hsys] & _ & _). rewrite Hsys.
    eexists. split; [reflexivity|]. simpl. split.
    + split; [done | by intros [? ?]].
    + do 2 (split; [done|]). split; [done|]. split; [apply live_System_release|].
      by rewrite last_snoc.
  - eexists. split; [reflexivity|]. simpl. split; [|done].
    split; [by eexists | done].
Qed.

End AudioManager.

(** ** The theorems at a concrete engine *)

Lemma initialize_ready : initialize always_ok new_World = Ok (true, ready).
Proof. reflexivity. Qed.

(** [loadSound_idempotent] on the initialised manager: the first load of
    "explosion" creates one resource, a second load with another path and
    the streaming flag set changes nothing. *)
Lemma loadSound_idempotent_example :
  exists w',
    loadSound always_ok "explosion" "explosion.wav" false ready = Ok (true, w') /\
    creations (eng_log (eng w')) = 1%nat /\
    loadSound always_ok "explosion" "other.ogg" true w' = Ok (true, w').
Proof.
  destruct (loadSound_idempotent always_ok "explosion" "explosion.wav" false ready)
    as (_ & H & _).
  destruct (H TheSystem eq_refl eq_refl eq_refl) as (w' & Hload & _ & Hc & _ & Hagain).
  exists w'. split; [exact Hload|]. split; [exact Hc|]. apply Hagain.
Defined.

(** The world after "boom" has been loaded from [boom.wav]. *)
Lemma loadSound_boom :
  exists w1,
    loadSound missing_file "boom" "boom.wav" false ready = Ok (true, w1) /\
    sounds (mgr w1) !! "boom" = Some (Some 0%nat) /\
    system (mgr w1) = Some TheSystem.
Proof. eexists. split; [reflexivity|]. by vm_compute. Qed.

(** C5 as stated fails for a cached name: with "boom" loaded, a load of
    "boom" from a file the engine cannot open returns [true]. *)
Lemma loadSound_cached_name_bad_file :
  exists w1,
    loadSound missing_file "boom" "boom.wav" false ready = Ok (true, w1) /\
    missing_file (eng w1) (create_call false "missing.wav") = FMOD_ERR_FILE_NOTFOUND /\
    loadSound missing_file "boom" "missing.wav" false w1 = Ok (true, w1).
Proof.
  destruct loadSound_boom as (w1 & H1 & Hb & _). exists w1.
  split; [exact H1|]. split; [reflexivity|].
  unfold loadSound. by rewrite Hb.
Qed.

(** [loadSound_failure_keeps_cache] when the file is missing. *)
Lemma loadSound_failure_example :
  exists w',
    loadSound missing_file "boom" "missing.wav" false ready = Ok (false, w') /\
    sounds (mgr w') = sounds (mgr ready).
Proof.
  destruct (loadSound_failure_keeps_cache missing_file "boom" "missing.wav" false ready
              TheSystem eq_refl eq_refl) as [H _].
  destruct (H eq_refl) as (w' & Hload & Hs & _).
  exists w'. split; [exact Hload | exact Hs].
Defined.

(** [play_not_loaded] for a sound nobody loaded. *)
Lemma play_not_loaded_example :
  exists w1 w2,
    playSFX always_ok "laser" fone ready = Ok w1 /\
    playMusic always_ok true "laser" true fone ready = Ok w2 /\
    eng w1 = eng ready /\ eng w2 = eng ready.
Proof.
  destruct (play_not_loaded always_ok true "laser" true fone ready eq_refl)
    as (w1 & w2 & H1 & H2 & _ & He1 & _ & _ & He2 & _).
  exists w1, w2. repeat split; assumption.
Defined.


(** C3 as stated fails: a volume of 2 set on the SFX category reaches the
    engine as 2 and becomes the group's volume, where the clamp of the
    specification would give 1. *)
Lemma setCategoryVolume_does_not_clamp :
  exists w',
    setCategoryVolume CATEGORY_SFX (float_of_Z 2) ready = Ok w' /\
    sfxGroup (mgr ready) = Some 1%nat /\
    grp_volume <$> eng_groups (eng w') !! 1%nat = Some (float_of_Z 2) /\
    last (eng_log (eng w')) = Some (ChannelGroup_setVolume 1 (float_of_Z 2)) /\
    spec_clamp01 (float_of_Z 2) = fone /\
    float_of_Z 2 <> spec_clamp01 (float_of_Z 2).
Proof.
  eexists. split; [reflexivity|]. vm_compute. repeat split. discriminate.
Qed.

(** [volume_forwarded_unclamped] for the music category and a volume of 2. *)
Lemma volume_forwarded_example :
  exists w1 w2,
    setCategoryVolume CATEGORY_MUSIC (float_of_Z 2) ready = Ok w1 /\
    grp_volume <$> eng_groups (eng w1) !! 2%nat = Some (float_of_Z 2) /\
    setMasterVolume (float_of_Z 2) ready = Ok w2 /\
    grp_volume <$> eng_groups (eng w2) !! 0%nat = Some (float_of_Z 2).
Proof.
  destruct (volume_forwarded_unclamped CATEGORY_MUSIC (float_of_Z 2) ready
              2%nat {| grp_name := "Music"; grp_volume := fone |}
              0%nat {| grp_name := "Master"; grp_volume := fone |}
              eq_refl eq_refl eq_refl eq_refl)
    as (w1 & w2 & H1 & (Hv1 & _) & H2 & (Hv2 & _)).
  exists w1, w2. repeat split; assumption.
Defined.

(** ** The further properties at a concrete engine *)

Lemma Inv_ready : Inv ready.
Proof. exact (initialize_inv always_ok ready initialize_ready). Qed.

Lemma cache_ok_ready : cache_ok ready.
Proof. split; intros ? ?; simpl; by rewrite lookup_empty. Qed.

(** [ended_music_channel_is_tolerated] after the music has ended. *)
Lemma ended_music_channel_example :
  exists w w',
    run always_ok all_end true
        [OpLoadSound "a" "a.mp3" true; OpPlayMusic "a" false fone; OpUpdate] ready = Ok w /\
    currentMusicChannel (mgr w) = Some 0%nat /\
    stopMusic w = Ok w' /\
    eng_channels (eng w') = eng_channels (eng w).
Proof.
  assert (Hrun : exists w,
            run always_ok all_end true
              [OpLoadSound "a" "a.mp3" true; OpPlayMusic "a" false fone; OpUpdate] ready
              = Ok w /\
            currentMusicChannel (mgr w) = Some 0%nat /\ live (eng w) 0 = false)
    by (eexists; split; [reflexivity | by vm_compute]).
  destruct Hrun as (w & Hrun & Hc & Hl).
  destruct (ended_music_channel_is_tolerated always_ok true 0%nat w Hc Hl)
    as (_ & (w' & Hstop & Hch & _) & _).
  exists w, w'. by repeat split.
Defined.

(** [playSFX_fire_and_forget] while music plays. *)
Lemma playSFX_example :
  exists w w',
    run always_ok never_ends true
        [OpLoadSound "a" "a.mp3" true; OpLoadSound "laser" "laser.wav" false;
         OpPlayMusic "a" true fone] ready = Ok w /\
    playSFX always_ok "laser" f_0_8 w = Ok w' /\
    mgr w' = mgr w /\
    eng_channels (eng w') !! 0%nat = eng_channels (eng w) !! 0%nat.
Proof.
  assert (Hrun : exists w,
            run always_ok never_ends true
              [OpLoadSound "a" "a.mp3" true; OpLoadSound "laser" "laser.wav" false;
               OpPlayMusic "a" true fone] ready = Ok w /\
            sounds (mgr w) !! "laser" = Some (Some 1%nat) /\
            system (mgr w) = Some TheSystem /\
            length (eng_channels (eng w)) = 1%nat)
    by (eexists; split; [reflexivity | by vm_compute]).
  destruct Hrun as (w & Hrun & Hn & Hs & Hlen).
  destruct (playSFX_fire_and_forget always_ok "laser" f_0_8 w _ _ Hn Hs)
    as (w' & Hp & Hm & _ & Hold & _).
  exists w, w'. do 3 (split; [done|]). apply Hold. rewrite Hlen. lia.
Defined.

(** [playMusic_configures_new_channel] on the first music of a run. *)
Lemma playMusic_configures_example :
  exists w w',
    loadSound always_ok "a" "a.mp3" true ready = Ok (true, w) /\
    playMusic always_ok true "a" false f_0_5 w = Ok w' /\
    (ch_volume <$> eng_channels (eng w') !! 0%nat) = Some f_0_5 /\
    (ch_mode <$> eng_channels (eng w') !! 0%nat) = Some FMOD_LOOP_OFF.
Proof.
  assert (Hrun : exists w,
            loadSound always_ok "a" "a.mp3" true ready = Ok (true, w) /\
            sounds (mgr w) !! "a" = Some (Some 0%nat) /\
            system (mgr w) = Some TheSystem /\
            length (eng_channels (eng w)) = 0%nat)
    by (eexists; split; [reflexivity | by vm_compute]).
  destruct Hrun as (w & Hrun & Hn & Hs & Hlen).
  destruct (playMusic_configures_new_channel always_ok true "a" false f_0_5 w 0%nat
              TheSystem Hn Hs eq_refl) as (w' & Hp & _ & Hch & _).
  rewrite Hlen in Hch.
  exists w, w'. do 2 (split; [done|]). by rewrite Hch.
Defined.


(** [cache_entries_are_stable] on a run that loads, plays and stops. *)
Lemma cache_entries_example :
  exists w,
    run always_ok never_ends true
        [OpLoadSound "a" "a.mp3" true; OpPlayMusic "a" true fone;
         OpLoadSound "b" "b.wav" false; OpPlaySFX "b" fone; OpStopMusic] ready = Ok w /\
    cache_ok w /\
    sounds (mgr ready) ⊆ sounds (mgr w).
Proof.
  assert (Hrun : exists w,
            run always_ok never_ends true
              [OpLoadSound "a" "a.mp3" true; OpPlayMusic "a" true fone;
               OpLoadSound "b" "b.wav" false; OpPlaySFX "b" fone; OpStopMusic] ready
              = Ok w)
    by (eexists; reflexivity).
  destruct Hrun as (w & Hrun).
  destruct (cache_entries_are_stable always_ok never_ends true _ ready w
              cache_ok_ready Hrun) as (Hok & Hsub & _).
  exists w. split; [done|]. by split.
Defined.

(** [same_file_under_two_names_loads_twice] for "a" and "b". *)
Lemma same_file_example :
  exists w1 w2,
    loadSound always_ok "a" "x.wav" false ready = Ok (true, w1) /\
    loadSound always_ok "b" "x.wav" false w1 = Ok (true, w2) /\
    creations (eng_log (eng w2)) = 2%nat.
Proof.
  assert (Hne : "a" <> "b") by discriminate.
  destruct (same_file_under_two_names_loads_twice always_ok "a" "b" "x.wav" false ready
              TheSystem Hne eq_refl eq_refl eq_refl (fun _ => eq_refl))
    as (w1 & w2 & s1 & s2 & H1 & H2 & _ & _ & _ & Hc).
  exists w1, w2. by repeat split.
Defined.

(** [shutdown_releases_everything] with two sounds cached. *)
Lemma shutdown_example :
  exists w calls w',
    run always_ok never_ends true
        [OpLoadSound "laser" "laser.wav" false; OpLoadSound "boom" "boom.wav" false]
        ready = Ok w /\
    shutdown w = Ok (calls, w') /\
    NoDup calls /\
    sounds (mgr w') = ∅.
Proof.
  assert (Hrun : exists w,
            run always_ok never_ends true
              [OpLoadSound "laser" "laser.wav" false; OpLoadSound "boom" "boom.wav" false]
              ready = Ok w)
    by (eexists; reflexivity).
  destruct Hrun as (w & Hrun).
  pose proof (run_cache_ok always_ok never_ends true _ ready w cache_ok_ready Hrun) as Hok.
  destruct (shutdown_releases_everything w Hok)
    as (entries & calls & w' & Hshut & _ & _ & _ & Hnd & _ & Hs & _).
  exists w, calls, w'. by repeat split.
Defined.

(** [use_after_shutdown] on the initialised manager. *)
Lemma use_after_shutdown_example :
  exists calls w',
    shutdown ready = Ok (calls, w') /\
    loadSound always_ok "a" "a.mp3" true w' = NullDeref /\
    update never_ends w' = Ok w'.
Proof.
  assert (Hshut : exists calls w', shutdown ready = Ok (calls, w'))
    by (do 2 eexists; reflexivity).
  destruct Hshut as (calls & w' & Hshut).
  destruct (use_after_shutdown always_ok never_ends true ready calls w'
              "a" "a.mp3" true true fone Hshut) as (Hl & _ & _ & Hu & _).
  exists calls, w'. by repeat split.
Defined.

(** ** The orbit demo: geometry, angle range, order of the calls *)

Module OrbitFacts.

Import Orbit.

Create HintDb keeps.

Lemma M_PI_bits : M_PI = S754_finite false 7074237752028440 (-51).
Proof. reflexivity. Qed.

Lemma updateInterval_bits : updateInterval = S754_finite false 13421773 (-28).
Proof. reflexivity. Qed.

Section Geometry.

Local Open Scope R_scope.

Lemma derivable_pt_lim_value (f : R -> R) (t l l' : R) :
  l = l' -> derivable_pt_lim f t l -> derivable_pt_lim f t l'.
Proof. intros ->. auto. Qed.

Lemma position_x_derivative (radius angularSpeed t : R) :
  derivable_pt_lim (fun t => vec_x (soundPos radius (angularSpeed * t))) t
                   (vec_x (soundVel radius angularSpeed (angularSpeed * t))).
Proof.
  simpl.
  eapply derivable_pt_lim_value; cycle 1.
  - apply (derivable_pt_lim_scal (fun t => cos (angularSpeed * t)) radius t).
    apply (derivable_pt_lim_comp (fun t => angularSpeed * t) cos).
    + apply (derivable_pt_lim_scal id angularSpeed t), derivable_pt_lim_id.
    + apply derivable_pt_lim_cos.
  - ring.
Qed.

Lemma position_z_derivative (radius angularSpeed t : R) :
  derivable_pt_lim (fun t => vec_z (soundPos radius (angularSpeed * t))) t
                   (vec_z (soundVel radius angularSpeed (angularSpeed * t))).
Proof.
  simpl.
  eapply derivable_pt_lim_value; cycle 1.
  - apply (derivable_pt_lim_scal (fun t => sin (angularSpeed * t)) radius t).
    apply (derivable_pt_lim_comp (fun t => angularSpeed * t) sin).
    + apply (derivable_pt_lim_scal id angularSpeed t), derivable_pt_lim_id.
    + apply derivable_pt_lim_sin.
  - ring.
Qed.

Lemma distance_is_radius (radius angle : R) :
  0 <= radius -> distance (soundPos radius angle) = radius.
Proof.
  intros Hr. unfold distance. simpl.
  replace (radius * cos angle * (radius * cos angle) + 0 * 0 +
           radius * sin angle * (radius * sin angle))
    with (radius * radius * (Rsqr (sin angle) + Rsqr (cos angle)))
    by (unfold Rsqr; ring).
  rewrite sin2_cos2, Rmult_1_r. by apply sqrt_square.
Qed.

Lemma velocity_is_tangent (radius angularSpeed angle : R) :
  dot (soundVel radius angularSpeed angle) (soundPos radius angle) = 0.
Proof. unfold dot. simpl. ring. Qed.

End Geometry.



Section Loop.

Variable answer : list Call -> Call -> FMOD_RESULT.
Variable cosf sinf : float -> float.

#[local] Abbreviation tick := (tick answer cosf sinf).
#[local] Abbreviation loop := (loop answer cosf sinf).
#[local] Abbreviation frame := (frame cosf sinf).
#[local] Abbreviation frames := (frames cosf sinf).
#[local] Abbreviation emitter_call := (emitter_call cosf sinf).

(** An iteration either completes, with the three calls in order, or the
    process exits right after the call that failed. *)
Lemma tick_cases st tr :
  tick st tr = (tr ++ frame st, Some (advance st)) \/
  tick st tr = (tr ++ [listener_call], None) \/
  tick st tr = (tr ++ [listener_call; emitter_call st], None).
Proof.
  unfold Orbit.tick, mbind, Run_bind, bind, call, CheckError, mret, Run_ret, ret, exit.
  destruct (is_ok (answer tr listener_call)); [|by auto].
  destruct (negb (is_ok (answer (tr ++ [listener_call]) (emitter_call st))) &&
            negb (is_invalid_handle (answer (tr ++ [listener_call]) (emitter_call st))))
    eqn:E.
  - apply andb_true_iff in E as [E _]. apply negb_true_iff in E. rewrite E.
    right. right. by rewrite <- app_assoc.
  - left. unfold Orbit.frame. by rewrite <- !app_assoc.
Qed.

Lemma tick_ok st tr :
  (forall tr c, answer tr c = FMOD_OK) ->
  tick st tr = (tr ++ frame st, Some (advance st)).
Proof.
  intros Hok.
  unfold Orbit.tick, mbind, Run_bind, bind, call, CheckError, mret, Run_ret, ret, exit.
  repeat (rewrite Hok; simpl). unfold Orbit.frame. by rewrite <- !app_assoc.
Qed.

Lemma frames_lookup k : forall st i,
  (i < k)%nat ->
  frames k st !! (3 * i)%nat = Some listener_call /\
  frames k st !! (3 * i + 1)%nat = Some (emitter_call (after i st)) /\
  frames k st !! (3 * i + 2)%nat = Some System_update.
Proof.
  induction k as [|k IH]; intros st i Hi; [lia|].
  destruct i as [|i].
  - done.
  - destruct (IH (advance st) i ltac:(lia)) as (H0 & H1 & H2).
    replace (3 * S i)%nat with (3 + 3 * i)%nat by lia.
    done.
Qed.

Lemma length_frames k : forall st, length (frames k st) = (3 * k)%nat.
Proof.
  induction k as [|k IH]; intros st; [done|].
  change (frames (S k) st) with (frame st ++ frames k (advance st)).
  rewrite length_app, IH. simpl. lia.
Qed.

Lemma updates_app l1 l2 : updates (l1 ++ l2) = (updates l1 + updates l2)%nat.
Proof. unfold updates. by rewrite filter_app, length_app. Qed.

Lemma updates_frames k : forall st, updates (frames k st) = k.
Proof.
  induction k as [|k IH]; intros st; [done|].
  change (frames (S k) st) with (frame st ++ frames k (advance st)).
  rewrite updates_app, IH. done.
Qed.

(** The calls of the loop: complete iterations, then at most the
    beginning of the iteration in which the process exited. *)
Lemma loop_trace fuel : forall st tr,
  exists k tail,
    (k <= fuel)%nat /\
    (loop fuel st tr).1 = tr ++ frames k st ++ tail /\
    (tail = [] \/
     ((loop fuel st tr).2 = None /\
      (tail = [listener_call] \/
       tail = [listener_call; emitter_call (after k st)]))).
Proof.
  induction fuel as [|fuel IH]; intros st tr.
  - exists 0%nat, []. split; [lia|]. split; [by rewrite !app_nil_r | by left].
  - simpl. destruct (flt (elapsedTime st) duration).
    + unfold mbind, Run_bind, bind.
      destruct (tick_cases st tr) as [E | [E | E]]; rewrite E.
      * destruct (IH (advance st) (tr ++ frame st)) as (k & tail & Hk & Htr & Htail).
        exists (S k), tail. split; [lia|]. split; [|exact Htail].
        rewrite Htr. change (frames (S k) st) with (frame st ++ frames k (advance st)).
        by rewrite <- !app_assoc.
      * exists 0%nat, [listener_call]. split; [lia|]. split; [done|]. right. auto.
      * exists 0%nat, [listener_call; emitter_call st]. split; [lia|].
        split; [done|]. right. auto.
    + exists 0%nat, []. split; [lia|]. split; [by rewrite !app_nil_r | by left].
Qed.

Lemma visited_trajectory fuel : forall st sts,
  visited fuel st = Some sts -> sts = trajectory (length sts) st.
Proof.
  induction fuel as [|fuel IH]; intros st sts; simpl; [done|].
  destruct (flt (elapsedTime st) duration).
  - destruct (visited fuel (advance st)) as [sts'|] eqn:E; simpl; [|done].
    intros [= <-]. simpl. f_equal. by apply IH.
  - by intros [= <-].
Qed.

(** With an engine that accepts every call, the loop runs as many complete
    iterations as [visited] counts and ends normally. *)
Lemma loop_complete fuel : forall st sts tr,
  (forall tr c, answer tr c = FMOD_OK) ->
  visited fuel st = Some sts ->
  loop fuel st tr =
    (tr ++ frames (length sts) st, Some (Some (after (length sts) st))).
Proof.
  induction fuel as [|fuel IH]; intros st sts tr Hok; simpl; [done|].
  destruct (flt (elapsedTime st) duration).
  - destruct (visited fuel (advance st)) as [sts'|] eqn:E; simpl; [|done].
    intros [= <-]. unfold mbind, Run_bind, bind. rewrite (tick_ok st tr Hok).
    rewrite (IH _ _ (tr ++ frame st) Hok E). simpl.
    by rewrite <- !app_assoc.
  - intros [= <-]. simpl. by rewrite app_nil_r.
Qed.

End Loop.

Lemma trajectory_lookup n : forall st k,
  (k < n)%nat -> trajectory n st !! k = Some (after (S k) st).
Proof.
  induction n as [|n IH]; intros st k Hk; [lia|].
  destruct k as [|k]; [done|]. simpl. apply IH. lia.
Qed.

Lemma length_trajectory n : forall st, length (trajectory n st) = n.
Proof. induction n as [|n IH]; intros st; simpl; [done | by rewrite IH]. Qed.

(** The loop of [main] ends after 300 iterations. *)
Lemma visited_main : length <$> visited 301 initial_state = Some 300%nat.
Proof. by vm_compute. Qed.

Lemma trajectory_in_range :
  forallb (fun st => in_range (angle st)) (trajectory (20 * 300) initial_state) = true.
Proof. by vm_compute. Qed.


(** C8. Whatever the engine answers, the calls the loop makes are complete
    iterations -- listener attributes, then the emitter's attributes, then
    one engine update -- followed at most by the beginning of an iteration
    that a failed call cut short before its update; the number of updates
    is the number of complete iterations.  With an engine that accepts every
    call, the loop of [main] makes exactly 300 such iterations. *)
Theorem tick_order (answer : list Call -> Call -> FMOD_RESULT) (cosf sinf : float -> float) :
  (forall fuel st tr,
     exists k tail,
       (k <= fuel)%nat /\
       (loop answer cosf sinf fuel st tr).1 = tr ++ frames cosf sinf k st ++ tail /\
       updates (frames cosf sinf k st ++ tail) = k /\
       (forall i, (i < k)%nat ->
          frames cosf sinf k st !! (3 * i)%nat = Some listener_call /\
          frames cosf sinf k st !! (3 * i + 1)%nat
            = Some (emitter_call cosf sinf (after i st)) /\
          frames cosf sinf k st !! (3 * i + 2)%nat = Some System_update) /\
       (tail = [] \/
        ((loop answer cosf sinf fuel st tr).2 = None /\
         (tail = [listener_call] \/
          tail = [listener_call; emitter_call cosf sinf (after k st)])))) /\
  ((forall tr c, answer tr c = FMOD_OK) ->
   forall tr,
     loop answer cosf sinf 301 initial_state tr =
       (tr ++ frames cosf sinf 300 initial_state, Some (Some (after 300 initial_state)))).
Proof.
  split.
  - intros fuel st tr.
    destruct (loop_trace answer cosf sinf fuel st tr) as (k & tail & Hk & Htr & Htail).
    exists k, tail. split; [done|]. split; [done|]. split; [|split].
    + rewrite updates_app, updates_frames.
      assert (updates tail = 0%nat) as ->
        by (destruct Htail as [-> | [_ [-> | ->]]]; reflexivity).
      lia.
    + intros i Hi. by apply frames_lookup.
    + done.
  - intros Hok tr. pose proof visited_main as Hlen.
    destruct (visited 301 initial_state) as [sts|] eqn:E; [|done].
    injection Hlen as Hlen.
    rewrite (loop_complete answer cosf sinf 301 initial_state sts tr Hok E).
    by rewrite Hlen.
Qed.

Section Distances.

Variable answer : list Call -> Call -> FMOD_RESULT.
Variable cosf sinf : float -> float.

Lemma keeps_ret {A : Type} (a : A) : keeps_distances (ret a).
Proof. by intros tr H. Qed.

Lemma keeps_exit {A : Type} : keeps_distances (@exit A).
Proof. by intros tr H. Qed.

Lemma keeps_bind {A B : Type} (m : Run A) (k : A -> Run B) :
  keeps_distances m -> (forall a, keeps_distances (k a)) -> keeps_distances (bind m k).
Proof.
  intros Hm Hk tr H. unfold bind. specialize (Hm tr H).
  destruct (m tr) as [tr' [a|]]; simpl in *; [by apply Hk | done].
Qed.

Lemma keeps_call c : distances_ok c -> keeps_distances (call answer c).
Proof.
  intros Hc tr H. simpl. apply Forall_app. split; [done|]. by apply Forall_singleton.
Qed.

Lemma keeps_CheckError r d : keeps_distances (CheckError r d).
Proof. unfold CheckError. destruct (is_ok r); [apply keeps_ret | apply keeps_exit]. Qed.

#[local] Hint Resolve keeps_ret keeps_exit keeps_CheckError : keeps.
#[local] Hint Extern 1 (keeps_distances (call _ _)) => (by apply keeps_call) : keeps.

(** A sequence of binds keeps the distances when each of its steps does. *)
Ltac keeps_steps :=
  unfold mbind, Run_bind, mret, Run_ret;
  repeat (apply keeps_bind; [|intros ?]); auto with keeps.

Lemma keeps_tick st : keeps_distances (tick answer cosf sinf st).
Proof.
  unfold tick. keeps_steps.
  destruct (_ && _); auto with keeps.
Qed.

Lemma keeps_loop fuel : forall st, keeps_distances (loop answer cosf sinf fuel st).
Proof.
  induction fuel as [|fuel IH]; intros st; simpl; [apply keeps_ret|].
  destruct (flt (elapsedTime st) duration); [|apply keeps_ret].
  apply keeps_bind; [apply keeps_tick | done].
Qed.

Lemma keeps_set_distances :
  keeps_distances (set_distances answer (float_of_Z 1) (float_of_Z 100)).
Proof. unfold set_distances. keeps_steps. Qed.

#[local] Hint Resolve keeps_set_distances : keeps.

Lemma keeps_setup soundFile : keeps_distances (setup answer soundFile).
Proof. unfold setup. keeps_steps. Qed.

Lemma keeps_teardown : keeps_distances (teardown answer).
Proof. unfold teardown. keeps_steps. Qed.

Lemma keeps_main fuel soundFile :
  keeps_distances (main answer cosf sinf fuel soundFile).
Proof.
  unfold main, mbind, Run_bind, mret, Run_ret.
  apply keeps_bind; [apply keeps_setup | intros _].
  apply keeps_bind; [apply keeps_loop | intros [st|]]; [|apply keeps_ret].
  apply keeps_bind; [apply keeps_teardown | intros ?; apply keeps_ret].
Qed.

Lemma setup_ok soundFile :
  (forall tr c, answer tr c = FMOD_OK) ->
  setup answer soundFile [] =
    ([System_Create; System_init 512; System_set3DSettings fone fone fone;
      System_createSound soundFile;
      Sound_set3DMinMaxDistance (float_of_Z 1) (float_of_Z 100); System_playSound],
     Some ()).
Proof.
  intros Hok.
  unfold setup, set_distances, mbind, Run_bind, bind, call, CheckError, ret, exit.
  repeat (rewrite Hok; simpl). reflexivity.
Qed.

End Distances.



Section Runs.

Variable answer : list Call -> Call -> FMOD_RESULT.
Variable cosf sinf : float -> float.

#[local] Arguments float_of_Z : simpl never.

(** The three outcomes of an iteration: it completes when the listener
    call succeeds and [set3DAttributes] answers [FMOD_OK] or
    [FMOD_ERR_INVALID_HANDLE]; it exits after the listener call when that
    fails; it exits after the two calls when [set3DAttributes] fails in any
    other way. *)
Lemma tick_outcomes st tr :
  (is_ok (answer tr listener_call) = true ->
   (is_ok (answer (tr ++ [listener_call]) (emitter_call cosf sinf st)) = true \/
    answer (tr ++ [listener_call]) (emitter_call cosf sinf st) = FMOD_ERR_INVALID_HANDLE) ->
   tick answer cosf sinf st tr = (tr ++ frame cosf sinf st, Some (advance st))) /\
  (is_ok (answer tr listener_call) = false ->
   tick answer cosf sinf st tr = (tr ++ [listener_call], None)) /\
  (is_ok (answer tr listener_call) = true ->
   is_ok (answer (tr ++ [listener_call]) (emitter_call cosf sinf st)) = false ->
   answer (tr ++ [listener_call]) (emitter_call cosf sinf st) <> FMOD_ERR_INVALID_HANDLE ->
   tick answer cosf sinf st tr =
     (tr ++ [listener_call; emitter_call cosf sinf st], None)).
Proof.
  unfold tick, mbind, Run_bind, bind, call, CheckError, mret, Run_ret, ret, exit, frame.
  split; [|split].
  - intros H1 H2. rewrite H1. simpl.
    destruct H2 as [H2 | H2]; rewrite H2; simpl; by rewrite <- !app_assoc.
  - intros H1. by rewrite H1.
  - intros H1 H2 H3. rewrite H1. simpl. rewrite H2. simpl.
    destruct (answer (tr ++ [listener_call]) (emitter_call cosf sinf st));
      simpl in *; try done; by rewrite <- !app_assoc.
Qed.

Lemma setup_returns soundFile tr :
  (setup answer soundFile tr).2 = Some () ->
  (setup answer soundFile tr).1 = tr ++ setup_calls soundFile.
Proof.
  unfold setup, set_distances, mbind, Run_bind, bind, call, CheckError, ret, exit.
  repeat (match goal with
          | |- context [is_ok ?r] => destruct (is_ok r); simpl
          end); try done.
  intros _. by rewrite <- !app_assoc.
Qed.


Lemma teardown_returns tr status :
  (teardown answer tr).2 = Some status ->
  (teardown answer tr).1 = tr ++ teardown_calls /\ status = 0%Z.
Proof.
  unfold teardown, mbind, Run_bind, bind, call, CheckError, mret, Run_ret, ret, exit.
  simpl.
  repeat (match goal with
          | |- context [is_ok ?r] => destruct (is_ok r); simpl
          end); try done.
  intros [= <-]. by rewrite <- !app_assoc.
Qed.

(** The clean-up stops the channel and releases the sound, whatever the
    stop answers; the system is released when the release of the sound
    succeeded. *)
Lemma teardown_releases_in_order tr :
  (is_ok (answer (tr ++ [Channel_stop]) Sound_release) = false ->
   teardown answer tr = (tr ++ [Channel_stop; Sound_release], None)) /\
  (is_ok (answer (tr ++ [Channel_stop]) Sound_release) = true ->
   (teardown answer tr).1 = tr ++ [Channel_stop; Sound_release; System_release] /\
   (teardown answer tr).2 =
     if is_ok (answer (tr ++ [Channel_stop; Sound_release]) System_release)
     then Some 0%Z else None).
Proof.
  unfold teardown, mbind, Run_bind, bind, call, CheckError, mret, Run_ret, ret, exit.
  simpl. split.
  - intros H. rewrite H. simpl. by rewrite <- !app_assoc.
  - intros H. rewrite H. simpl. rewrite <- !app_assoc. simpl.
    by destruct (is_ok (answer (tr ++ [Channel_stop; Sound_release]) System_release)).
Qed.

(** Whatever the engine answers, the loop with enough fuel either exits or
    makes all its iterations. *)
Lemma loop_exits_or_completes fuel : forall st sts tr,
  visited fuel st = Some sts ->
  (loop answer cosf sinf fuel st tr).2 = None \/
  loop answer cosf sinf fuel st tr =
    (tr ++ frames cosf sinf (length sts) st, Some (Some (after (length sts) st))).
Proof.
  induction fuel as [|fuel IH]; intros st sts tr; simpl; [done|].
  destruct (flt (elapsedTime st) duration).
  - destruct (visited fuel (advance st)) as [sts'|] eqn:E; simpl; [|done].
    intros [= <-]. unfold mbind, Run_bind, bind.
    destruct (tick_cases answer cosf sinf st tr) as [Ht | [Ht | Ht]]; rewrite Ht;
      [|by left..].
    destruct (IH (advance st) sts' (tr ++ frame cosf sinf st) E) as [Hx | Hc]; [by left|].
    right. rewrite Hc. simpl. by rewrite <- !app_assoc.
  - intros [= <-]. right. simpl. by rewrite app_nil_r.
Qed.

(** X13. The loop tolerates a channel that has ended: when every listener
    call succeeds and every [set3DAttributes] is answered with [FMOD_OK] or
    [FMOD_ERR_INVALID_HANDLE], the loop of [main] makes all its 300
    iterations, each with its update, and ends normally -- whatever the
    updates themselves answer. *)
Theorem loop_tolerates_invalid_handle tr :
  (forall tr, is_ok (answer tr listener_call) = true) ->
  (forall tr st,
     is_ok (answer tr (emitter_call cosf sinf st)) = true \/
     answer tr (emitter_call cosf sinf st) = FMOD_ERR_INVALID_HANDLE) ->
  loop answer cosf sinf 301 initial_state tr =
    (tr ++ frames cosf sinf 300 initial_state, Some (Some (after 300 initial_state))) /\
  updates (frames cosf sinf 300 initial_state) = 300%nat.
Proof.
  intros HL HE. split; [|apply updates_frames].
  assert (Hgen : forall fuel st sts tr,
            visited fuel st = Some sts ->
            loop answer cosf sinf fuel st tr =
              (tr ++ frames cosf sinf (length sts) st,
               Some (Some (after (length sts) st)))).
  { induction fuel as [|fuel IH]; intros st sts tr0; simpl; [done|].
    destruct (flt (elapsedTime st) duration).
    - destruct (visited fuel (advance st)) as [sts'|] eqn:E; simpl; [|done].
      intros [= <-]. unfold mbind, Run_bind, bind.
      destruct (tick_outcomes st tr0) as [Hc _].
      rewrite (Hc (HL _) (HE _ _)), (IH _ _ _ E). cbn [length].
      change (frames cosf sinf (S (length sts')) st)
        with (frame cosf sinf st ++ frames cosf sinf (length sts') (advance st)).
      by rewrite <- !app_assoc.
    - intros [= <-]. cbn [length frames after]. by rewrite app_nil_r. }
  pose proof visited_main as Hlen.
  destruct (visited 301 initial_state) as [sts|] eqn:E; [|done].
  injection Hlen as Hlen. rewrite (Hgen 301%nat initial_state sts tr E). by rewrite Hlen.
Qed.

(** X15. A run of [main] that returns has made exactly the calls of a
    complete run: the six of the set-up, 300 iterations of listener,
    emitter and update, then stop and the two releases -- 909 calls, 300 of
    them updates -- and its status is 0.  Whatever the engine answers,
    [main] either exits or returns so (301 units of fuel are enough). *)
Theorem main_returns_after_complete_run soundFile :
  (main answer cosf sinf 301 soundFile []).2 = None \/
  ((main answer cosf sinf 301 soundFile []).2 = Some (Some 0%Z) /\
   (main answer cosf sinf 301 soundFile []).1 =
     setup_calls soundFile ++ frames cosf sinf 300 initial_state ++ teardown_calls /\
   length (main answer cosf sinf 301 soundFile []).1 = 909%nat /\
   updates (main answer cosf sinf 301 soundFile []).1 = 300%nat).
Proof.
  unfold main, mbind, Run_bind, bind.
  pose proof (setup_returns soundFile []) as Hsetup.
  destruct (setup answer soundFile []) as [tr1 [[]|]]; [|by left].
  cbn [fst snd] in Hsetup. rewrite (Hsetup eq_refl), app_nil_l.
  pose proof visited_main as Hlen.
  destruct (visited 301 initial_state) as [sts|] eqn:E; [|done].
  injection Hlen as Hlen.
  destruct (loop_exits_or_completes 301 initial_state sts (setup_calls soundFile) E)
    as [Hx | Hc].
  - left. destruct (loop answer cosf sinf 301 initial_state (setup_calls soundFile))
      as [tr2 [r|]]; cbn [fst snd] in *; [discriminate | reflexivity].
  - rewrite Hc, Hlen.
    pose proof (teardown_returns
                  (setup_calls soundFile ++ frames cosf sinf 300 initial_state)) as Htd.
    destruct (teardown answer (setup_calls soundFile ++ frames cosf sinf 300 initial_state))
      as [tr3 [status|]]; [|by left].
    destruct (Htd status eq_refl) as [Htr ->]. cbn [fst snd] in Htr. right.
    cbn [fst snd]. unfold ret. cbn [fst snd].
    split; [reflexivity|]. rewrite Htr, <- app_assoc. split; [reflexivity|].
    split.
    + rewrite !length_app, length_frames. reflexivity.
    + rewrite !updates_app, updates_frames. reflexivity.
Qed.

End Runs.

(** [loop_tolerates_invalid_handle] with an engine whose channel has ended. *)
Lemma loop_tolerates_example :
  updates (loop channel_ended (fun _ => fone) (fun _ => fzero) 301 initial_state []).1
    = 300%nat.
Proof.
  destruct (loop_tolerates_invalid_handle channel_ended (fun _ => fone) (fun _ => fzero) []
              (fun _ => eq_refl) (fun _ _ => or_intror eq_refl)) as [Hloop Hupd].
  rewrite Hloop. exact Hupd.
Defined.

Section Periodicity.

Local Open Scope R_scope.


End Periodicity.

End OrbitFacts.
